(** * Session and flow controller of the simulated video call page

    A shallow embedding of [src/pages/Index.tsx] (the chat-styled variant,
    the first [Index] component of the file): the duration-limit
    resolution done at mount, the call-session controller ([startCall],
    the one-second interval, [endCall], [toggleMic], [toggleCam]) and the
    guided chat flow (package, contact, summary, generated link).

    Modelling conventions.
    - A React state slot is a field of [World]; a handler runs against the
      last committed render, so the values it closes over are the fields of
      the world it is applied to.  [commit] re-runs the effects whose
      dependency list changed.
    - A [useRef] cell is a field too ([selfStreamRef], [timerRef]).
    - The browser is part of the world: the table of active intervals
      ([intervals], as [window.setInterval]/[clearInterval] maintain it),
      the pending pacing timeout, the pending capture requests, and the
      list of outward effects performed so far ([effects]).
    - JavaScript numbers that the page manipulates are integers; they are
      modelled by [Z] (exact below 2^53).  A JavaScript string is the
      [string] of the bytes of its UTF-8 encoding, which is how a string
      literal of this file is read. *)

From Stdlib Require Import ZArith Lia Ascii String.
From stdpp Require Import base option list strings pretty gmap.

Local Open Scope Z_scope.

(** ** Data model *)

Record MediaState := { micOn : bool; camOn : bool }.

(** [price] is kept in centavos (49.9 is 4990). *)
Record PackageOption := {
  id : string;
  label : string;
  minutes : Z;
  price : Z
}.

Definition CALL_DURATION_LIMIT_MINUTES : Z := 30.

Definition PACKAGES : list PackageOption :=
  [ {| id := "p10"; label := "10 minutos"; minutes := 10; price := 4990 |};
    {| id := "p20"; label := "20 minutos"; minutes := 20; price := 7990 |};
    {| id := "p30"; label := "30 minutos"; minutes := 30; price := 9990 |} ].

Inductive ChatStep :=
  | step_intro
  | step_minutes
  | step_minutes_confirmed
  | step_contact_typing
  | step_contact
  | step_contact_confirmed
  | step_summary_typing
  | step_summary
  | step_finished.

Inductive ContactChannel := whatsapp | telegram | email.

Inductive TrackKind := AudioTrack | VideoTrack.

(** A captured device track: [enabled] is the writable flag of
    [MediaStreamTrack]. *)
Record Track := { kind : TrackKind; enabled : bool }.

(** The row of [call_config] selected by [loadConfig]. *)
Record ConfigRow := {
  video_url : option string;
  audio_url : option string;
  duration_seconds : option Z
}.

(** Outward effects, in the order the page performs them. *)
Inductive Effect :=
  | FetchConfig
  | GetUserMedia
  | TrackStop (t : Track)
  | SetInterval (handle : positive) (limit : Z)
  | ClearInterval (handle : positive)
  | WindowOpen (url target : string)
  | Toast (destructive : bool) (title description : string)
  | ConsoleError.

Global Instance ChatStep_eq_dec : EqDecision ChatStep.
Proof. solve_decision. Defined.
Global Instance ContactChannel_eq_dec : EqDecision ContactChannel.
Proof. solve_decision. Defined.
Global Instance TrackKind_eq_dec : EqDecision TrackKind.
Proof. solve_decision. Defined.

Record World := {
  (* useState *)
  inCall : bool;
  connecting : bool;
  duration : Z;
  mediaState : MediaState;
  permissionError : option string;
  configVideoUrl : option string;
  configAudioUrl : option string;
  durationLimitSeconds : option Z;
  hasDurationParam : bool;
  chatStep : ChatStep;
  selectedPackage : option PackageOption;
  contactChannel : option ContactChannel;
  contactValue : string;
  isTyping : bool;
  (* useRef *)
  selfStreamRef : option (list Track);
  timerRef : option positive;
  (* browser *)
  intervals : gmap positive Z;
  nextHandle : positive;
  pendingTimeout : option (Z * ChatStep);
  pendingMedia : nat;
  effects : list Effect
}.

Definition initialWorld : World := {|
  inCall := false;
  connecting := false;
  duration := 0;
  mediaState := {| micOn := true; camOn := true |};
  permissionError := None;
  configVideoUrl := None;
  configAudioUrl := None;
  durationLimitSeconds := None;
  hasDurationParam := false;
  chatStep := step_intro;
  selectedPackage := None;
  contactChannel := None;
  contactValue := "";
  isTyping := false;
  selfStreamRef := None;
  timerRef := None;
  intervals := ∅;
  nextHandle := 1%positive;
  pendingTimeout := None;
  pendingMedia := 0%nat;
  effects := []
|}.

(** ** Field updates *)

Definition setInCall (v : bool) (w : World) : World :=
  Build_World v (connecting w) (duration w) (mediaState w) (permissionError w)
    (configVideoUrl w) (configAudioUrl w) (durationLimitSeconds w) (hasDurationParam w)
    (chatStep w) (selectedPackage w) (contactChannel w) (contactValue w) (isTyping w)
    (selfStreamRef w) (timerRef w) (intervals w) (nextHandle w) (pendingTimeout w)
    (pendingMedia w) (effects w).

Definition setConnecting (v : bool) (w : World) : World :=
  Build_World (inCall w) v (duration w) (mediaState w) (permissionError w)
    (configVideoUrl w) (configAudioUrl w) (durationLimitSeconds w) (hasDurationParam w)
    (chatStep w) (selectedPackage w) (contactChannel w) (contactValue w) (isTyping w)
    (selfStreamRef w) (timerRef w) (intervals w) (nextHandle w) (pendingTimeout w)
    (pendingMedia w) (effects w).

Definition setDuration (v : Z) (w : World) : World :=
  Build_World (inCall w) (connecting w) v (mediaState w) (permissionError w)
    (configVideoUrl w) (configAudioUrl w) (durationLimitSeconds w) (hasDurationParam w)
    (chatStep w) (selectedPackage w) (contactChannel w) (contactValue w) (isTyping w)
    (selfStreamRef w) (timerRef w) (intervals w) (nextHandle w) (pendingTimeout w)
    (pendingMedia w) (effects w).

Definition setMediaState (v : MediaState) (w : World) : World :=
  Build_World (inCall w) (connecting w) (duration w) v (permissionError w)
    (configVideoUrl w) (configAudioUrl w) (durationLimitSeconds w) (hasDurationParam w)
    (chatStep w) (selectedPackage w) (contactChannel w) (contactValue w) (isTyping w)
    (selfStreamRef w) (timerRef w) (intervals w) (nextHandle w) (pendingTimeout w)
    (pendingMedia w) (effects w).

Definition setPermissionError (v : option string) (w : World) : World :=
  Build_World (inCall w) (connecting w) (duration w) (mediaState w) v
    (configVideoUrl w) (configAudioUrl w) (durationLimitSeconds w) (hasDurationParam w)
    (chatStep w) (selectedPackage w) (contactChannel w) (contactValue w) (isTyping w)
    (selfStreamRef w) (timerRef w) (intervals w) (nextHandle w) (pendingTimeout w)
    (pendingMedia w) (effects w).

Definition setConfigVideoUrl (v : option string) (w : World) : World :=
  Build_World (inCall w) (connecting w) (duration w) (mediaState w) (permissionError w)
    v (configAudioUrl w) (durationLimitSeconds w) (hasDurationParam w)
    (chatStep w) (selectedPackage w) (contactChannel w) (contactValue w) (isTyping w)
    (selfStreamRef w) (timerRef w) (intervals w) (nextHandle w) (pendingTimeout w)
    (pendingMedia w) (effects w).

Definition setConfigAudioUrl (v : option string) (w : World) : World :=
  Build_World (inCall w) (connecting w) (duration w) (mediaState w) (permissionError w)
    (configVideoUrl w) v (durationLimitSeconds w) (hasDurationParam w)
    (chatStep w) (selectedPackage w) (contactChannel w) (contactValue w) (isTyping w)
    (selfStreamRef w) (timerRef w) (intervals w) (nextHandle w) (pendingTimeout w)
    (pendingMedia w) (effects w).

Definition setDurationLimitSeconds (v : option Z) (w : World) : World :=
  Build_World (inCall w) (connecting w) (duration w) (mediaState w) (permissionError w)
    (configVideoUrl w) (configAudioUrl w) v (hasDurationParam w)
    (chatStep w) (selectedPackage w) (contactChannel w) (contactValue w) (isTyping w)
    (selfStreamRef w) (timerRef w) (intervals w) (nextHandle w) (pendingTimeout w)
    (pendingMedia w) (effects w).

Definition setHasDurationParam (v : bool) (w : World) : World :=
  Build_World (inCall w) (connecting w) (duration w) (mediaState w) (permissionError w)
    (configVideoUrl w) (configAudioUrl w) (durationLimitSeconds w) v
    (chatStep w) (selectedPackage w) (contactChannel w) (contactValue w) (isTyping w)
    (selfStreamRef w) (timerRef w) (intervals w) (nextHandle w) (pendingTimeout w)
    (pendingMedia w) (effects w).

Definition setChatStep (v : ChatStep) (w : World) : World :=
  Build_World (inCall w) (connecting w) (duration w) (mediaState w) (permissionError w)
    (configVideoUrl w) (configAudioUrl w) (durationLimitSeconds w) (hasDurationParam w)
    v (selectedPackage w) (contactChannel w) (contactValue w) (isTyping w)
    (selfStreamRef w) (timerRef w) (intervals w) (nextHandle w) (pendingTimeout w)
    (pendingMedia w) (effects w).

Definition setSelectedPackage (v : option PackageOption) (w : World) : World :=
  Build_World (inCall w) (connecting w) (duration w) (mediaState w) (permissionError w)
    (configVideoUrl w) (configAudioUrl w) (durationLimitSeconds w) (hasDurationParam w)
    (chatStep w) v (contactChannel w) (contactValue w) (isTyping w)
    (selfStreamRef w) (timerRef w) (intervals w) (nextHandle w) (pendingTimeout w)
    (pendingMedia w) (effects w).

Definition setContactChannel (v : option ContactChannel) (w : World) : World :=
  Build_World (inCall w) (connecting w) (duration w) (mediaState w) (permissionError w)
    (configVideoUrl w) (configAudioUrl w) (durationLimitSeconds w) (hasDurationParam w)
    (chatStep w) (selectedPackage w) v (contactValue w) (isTyping w)
    (selfStreamRef w) (timerRef w) (intervals w) (nextHandle w) (pendingTimeout w)
    (pendingMedia w) (effects w).

Definition setContactValue (v : string) (w : World) : World :=
  Build_World (inCall w) (connecting w) (duration w) (mediaState w) (permissionError w)
    (configVideoUrl w) (configAudioUrl w) (durationLimitSeconds w) (hasDurationParam w)
    (chatStep w) (selectedPackage w) (contactChannel w) v (isTyping w)
    (selfStreamRef w) (timerRef w) (intervals w) (nextHandle w) (pendingTimeout w)
    (pendingMedia w) (effects w).

Definition setIsTyping (v : bool) (w : World) : World :=
  Build_World (inCall w) (connecting w) (duration w) (mediaState w) (permissionError w)
    (configVideoUrl w) (configAudioUrl w) (durationLimitSeconds w) (hasDurationParam w)
    (chatStep w) (selectedPackage w) (contactChannel w) (contactValue w) v
    (selfStreamRef w) (timerRef w) (intervals w) (nextHandle w) (pendingTimeout w)
    (pendingMedia w) (effects w).

Definition setSelfStreamRef (v : option (list Track)) (w : World) : World :=
  Build_World (inCall w) (connecting w) (duration w) (mediaState w) (permissionError w)
    (configVideoUrl w) (configAudioUrl w) (durationLimitSeconds w) (hasDurationParam w)
    (chatStep w) (selectedPackage w) (contactChannel w) (contactValue w) (isTyping w)
    v (timerRef w) (intervals w) (nextHandle w) (pendingTimeout w)
    (pendingMedia w) (effects w).

Definition setTimerRef (v : option positive) (w : World) : World :=
  Build_World (inCall w) (connecting w) (duration w) (mediaState w) (permissionError w)
    (configVideoUrl w) (configAudioUrl w) (durationLimitSeconds w) (hasDurationParam w)
    (chatStep w) (selectedPackage w) (contactChannel w) (contactValue w) (isTyping w)
    (selfStreamRef w) v (intervals w) (nextHandle w) (pendingTimeout w)
    (pendingMedia w) (effects w).

Definition setIntervals (v : gmap positive Z) (w : World) : World :=
  Build_World (inCall w) (connecting w) (duration w) (mediaState w) (permissionError w)
    (configVideoUrl w) (configAudioUrl w) (durationLimitSeconds w) (hasDurationParam w)
    (chatStep w) (selectedPackage w) (contactChannel w) (contactValue w) (isTyping w)
    (selfStreamRef w) (timerRef w) v (nextHandle w) (pendingTimeout w)
    (pendingMedia w) (effects w).

Definition setNextHandle (v : positive) (w : World) : World :=
  Build_World (inCall w) (connecting w) (duration w) (mediaState w) (permissionError w)
    (configVideoUrl w) (configAudioUrl w) (durationLimitSeconds w) (hasDurationParam w)
    (chatStep w) (selectedPackage w) (contactChannel w) (contactValue w) (isTyping w)
    (selfStreamRef w) (timerRef w) (intervals w) v (pendingTimeout w)
    (pendingMedia w) (effects w).

Definition setPendingTimeout (v : option (Z * ChatStep)) (w : World) : World :=
  Build_World (inCall w) (connecting w) (duration w) (mediaState w) (permissionError w)
    (configVideoUrl w) (configAudioUrl w) (durationLimitSeconds w) (hasDurationParam w)
    (chatStep w) (selectedPackage w) (contactChannel w) (contactValue w) (isTyping w)
    (selfStreamRef w) (timerRef w) (intervals w) (nextHandle w) v
    (pendingMedia w) (effects w).

Definition setPendingMedia (v : nat) (w : World) : World :=
  Build_World (inCall w) (connecting w) (duration w) (mediaState w) (permissionError w)
    (configVideoUrl w) (configAudioUrl w) (durationLimitSeconds w) (hasDurationParam w)
    (chatStep w) (selectedPackage w) (contactChannel w) (contactValue w) (isTyping w)
    (selfStreamRef w) (timerRef w) (intervals w) (nextHandle w) (pendingTimeout w)
    v (effects w).

(** [perform es w] appends the outward effects [es] to the record of the
    effects performed. *)
Definition perform (es : list Effect) (w : World) : World :=
  Build_World (inCall w) (connecting w) (duration w) (mediaState w) (permissionError w)
    (configVideoUrl w) (configAudioUrl w) (durationLimitSeconds w) (hasDurationParam w)
    (chatStep w) (selectedPackage w) (contactChannel w) (contactValue w) (isTyping w)
    (selfStreamRef w) (timerRef w) (intervals w) (nextHandle w) (pendingTimeout w)
    (pendingMedia w) (effects w ++ es).

(** ** White space

    [parseInt] and [String.prototype.trim] strip the same characters,
    ECMAScript's [WhiteSpace] and [LineTerminator]: U+0009 to U+000D,
    U+0020, U+00A0, U+1680, U+2000 to U+200A, U+2028, U+2029, U+202F,
    U+205F, U+3000 and U+FEFF.  Encoded in UTF-8 they take one, two or
    three bytes. *)

Definition byteOf (c : ascii) : Z := Z.of_N (N_of_ascii c).

(** U+0009 to U+000D and U+0020. *)
Definition isWhiteSpace1 (b : Z) : bool :=
  ((9 <=? b) && (b <=? 13)) || (b =? 32).

(** U+00A0, encoded [C2 A0]. *)
Definition isWhiteSpace2 (b1 b2 : Z) : bool :=
  (b1 =? 194) && (b2 =? 160).

(** U+1680 [E1 9A 80]; U+2000 to U+200A [E2 80 80] to [E2 80 8A];
    U+2028 [E2 80 A8]; U+2029 [E2 80 A9]; U+202F [E2 80 AF];
    U+205F [E2 81 9F]; U+3000 [E3 80 80]; U+FEFF [EF BB BF]. *)
Definition isWhiteSpace3 (b1 b2 b3 : Z) : bool :=
  ((b1 =? 225) && (b2 =? 154) && (b3 =? 128))
  || ((b1 =? 226) && (b2 =? 128)
      && (((128 <=? b3) && (b3 <=? 138)) || (b3 =? 168) || (b3 =? 169) || (b3 =? 175)))
  || ((b1 =? 226) && (b2 =? 129) && (b3 =? 159))
  || ((b1 =? 227) && (b2 =? 128) && (b3 =? 128))
  || ((b1 =? 239) && (b2 =? 187) && (b3 =? 191)).

(** The string without the white space it begins with. *)
Fixpoint skipWhiteSpace (s : string) : string :=
  match s with
  | String c1 s1 =>
      if isWhiteSpace1 (byteOf c1) then skipWhiteSpace s1
      else
        match s1 with
        | String c2 s2 =>
            if isWhiteSpace2 (byteOf c1) (byteOf c2) then skipWhiteSpace s2
            else
              match s2 with
              | String c3 s3 =>
                  if isWhiteSpace3 (byteOf c1) (byteOf c2) (byteOf c3)
                  then skipWhiteSpace s3
                  else s
              | EmptyString => s
              end
        | EmptyString => s
        end
  | EmptyString => s
  end.

(** Only white space. *)
Definition isBlank (s : string) : bool := bool_decide (skipWhiteSpace s = "").

(** The string without the white space it ends with: the longest suffix
    that is only white space is dropped. *)
Fixpoint trimEnd (s : string) : string :=
  if isBlank s then ""
  else
    match s with
    | String c s' => String c (trimEnd s')
    | EmptyString => ""
    end.

(** ** [parseInt(s, 10)]

    Leading white space is skipped, one sign is accepted, then the longest
    run of decimal digits is read; [None] stands for [NaN] (no digit). *)

Definition digitValue (c : ascii) : option Z :=
  let n := Z.of_N (N_of_ascii c) in
  if (48 <=? n) && (n <=? 57) then Some (n - 48) else None.

Fixpoint readDigits (s : string) (acc : option Z) : option Z :=
  match s with
  | String c s' =>
      match digitValue c with
      | Some d => readDigits s' (Some (10 * default 0 acc + d))
      | None => acc
      end
  | EmptyString => acc
  end.

Definition parseInt (s : string) : option Z :=
  match skipWhiteSpace s with
  | String "-" s' => Z.opp <$> readDigits s' None
  | String "+" s' => readDigits s' None
  | s' => readDigits s' None
  end.

(** Truthiness of the result of [params.get("seconds")]: neither [null]
    nor the empty string. *)
Definition truthy (v : option string) : bool :=
  match v with
  | Some (String _ _) => true
  | _ => false
  end.

Example parseInt_600 : parseInt "600" = Some 600.
Proof. reflexivity. Qed.
Example parseInt_trailing : parseInt " +12px" = Some 12.
Proof. reflexivity. Qed.
Example parseInt_abc : parseInt "abc" = None.
Proof. reflexivity. Qed.
Example parseInt_neg : parseInt "-5" = Some (-5).
Proof. reflexivity. Qed.

(** ** Duration limit: the mount effect and [loadConfig] *)

(** The part of the mount effect that reads [?seconds=]. *)
Definition readSecondsParam (secondsFromUrl : option string) (w : World) : World :=
  if truthy secondsFromUrl then
    match parseInt (default "" secondsFromUrl) with
    | Some parsed =>
        if 0 <? parsed
        then setHasDurationParam true (setDurationLimitSeconds (Some parsed) w)
        else w
    | None => w
    end
  else setHasDurationParam false w.

(** The continuation of [loadConfig] once the query has answered with
    [data] ([None] when there is no row, or the query failed). *)
Definition configLoaded (data : option ConfigRow) (w : World) : World :=
  match data with
  | Some row =>
      let w := setConfigVideoUrl (video_url row) w in
      let w := setConfigAudioUrl (audio_url row) w in
      setDurationLimitSeconds
        (match durationLimitSeconds w with
         | Some prev => Some prev
         | None => duration_seconds row
         end) w
  | None => w
  end.

Definition effectiveLimitSeconds (limit : option Z) : Z :=
  default (CALL_DURATION_LIMIT_MINUTES * 60) limit.

(** ** Call session *)

Definition clearInterval (handle : positive) (w : World) : World :=
  setIntervals (delete handle (intervals w)) (perform [ClearInterval handle] w).

Definition stopMediaTracks (w : World) : World :=
  match selfStreamRef w with
  | Some tracks => setSelfStreamRef None (perform (TrackStop <$> tracks) w)
  | None => w
  end.

Definition endCall (w : World) : World :=
  let w := setInCall false w in
  let w := setDuration 0 w in
  let w := stopMediaTracks w in
  match timerRef w with
  | Some handle => setTimerRef None (clearInterval handle w)
  | None => w
  end.

(** The updater given to [setDuration] by the interval callback: the new
    value, and whether [endCall] is invoked while computing it. *)
Definition durationUpdater (limit prev : Z) : Z * bool :=
  if limit <=? prev + 1 then (prev + 1, true) else (prev + 1, false).

(** [endCall] runs inside the updater, so its own [setDuration(0)] and the
    updater's result [prev + 1] are queued on the same slot.  React runs
    the updater either while rendering, and then the nested
    [setDuration(0)] is a render-phase update applied after the updater's
    result, or eagerly at dispatch, and then the nested update is queued
    before the updater's result. *)
Inductive UpdaterPath := RenderPhase | Eager.

Definition intervalCallback (limit : Z) (path : UpdaterPath) (w : World) : World :=
  let '(next, ends) := durationUpdater limit (duration w) in
  if ends then
    match path with
    | RenderPhase => endCall (setDuration next w)
    | Eager => setDuration next (endCall w)
    end
  else setDuration next w.

(** A timer task runs its callback only while its handle is in the table
    of active timers. *)
Definition intervalFired (handle : positive) (path : UpdaterPath) (w : World) : World :=
  match intervals w !! handle with
  | Some limit => intervalCallback limit path w
  | None => w
  end.

(** The timer effect, dependencies [inCall, durationLimitSeconds]. *)
Definition timerEffect (w : World) : World :=
  if inCall w then
    let handle := nextHandle w in
    let limit := effectiveLimitSeconds (durationLimitSeconds w) in
    let w := perform [SetInterval handle limit] w in
    let w := setIntervals (<[handle := limit]> (intervals w)) w in
    let w := setNextHandle (Pos.succ handle) w in
    setTimerRef (Some handle) w
  else w.

(** Its cleanup, returned only by a run that found [inCall] true. *)
Definition timerCleanup (w : World) : World :=
  match timerRef w with
  | Some handle => setTimerRef None (clearInterval handle w)
  | None => w
  end.

Definition humanMessage : string :=
  "Não foi possível acessar sua câmera ou microfone. Verifique as permissões do navegador.".

Definition permissionToast : Effect := Toast true "Permissão necessária" humanMessage.

(** [startCall] up to the suspension on [getUserMedia]. *)
Definition startCallRequest (w : World) : World :=
  let w := setConnecting true w in
  let w := setPermissionError None w in
  setPendingMedia (S (pendingMedia w)) (perform [GetUserMedia] w).

(** What the capture request resolves to: the kinds of the tracks of the
    stream, or a rejection.  A fresh track is enabled. *)
Inductive MediaResult := Granted (stream : list TrackKind) | Denied.

Definition freshTrack (k : TrackKind) : Track := {| kind := k; enabled := true |}.

(** [requestMedia] from the suspension on: the world, and the boolean it
    returns.  No self-view element is mounted while [inCall] is false, so
    the success path has no second suspension. *)
Definition requestMediaResume (r : MediaResult) (w : World) : World * bool :=
  match r with
  | Granted stream => (setSelfStreamRef (Some (freshTrack <$> stream)) w, true)
  | Denied =>
      let w := perform [ConsoleError] w in
      let w := setPermissionError (Some humanMessage) w in
      (perform [permissionToast] w, false)
  end.

Definition startCallResume (r : MediaResult) (w : World) : World :=
  let w := setPendingMedia (Nat.pred (pendingMedia w)) w in
  let '(w, ok) := requestMediaResume r w in
  if ok then
    let w := setDuration 0 w in
    let w := setInCall true w in
    setConnecting false w
  else setConnecting false w.

Definition setEnabled (k : TrackKind) (v : bool) (t : Track) : Track :=
  if decide (kind t = k) then {| kind := kind t; enabled := v |} else t.

Definition toggleMic (w : World) : World :=
  let next := negb (micOn (mediaState w)) in
  let w := setMediaState {| micOn := next; camOn := camOn (mediaState w) |} w in
  match selfStreamRef w with
  | Some tracks => setSelfStreamRef (Some (setEnabled AudioTrack next <$> tracks)) w
  | None => w
  end.

Definition toggleCam (w : World) : World :=
  let next := negb (camOn (mediaState w)) in
  let w := setMediaState {| micOn := micOn (mediaState w); camOn := next |} w in
  match selfStreamRef w with
  | Some tracks => setSelfStreamRef (Some (setEnabled VideoTrack next <$> tracks)) w
  | None => w
  end.

(** The auto-start effect. *)
Definition autoStart (secondsFromUrl : option string) (w : World) : World :=
  if truthy secondsFromUrl then startCallRequest w else w.

(** ** Guided chat flow *)

(** [String.prototype.trim]: white space is stripped from both ends. *)
Definition trim (s : string) : string := trimEnd (skipWhiteSpace s).

Definition packageClick (pkg : PackageOption) (w : World) : World :=
  let w := setSelectedPackage (Some pkg) w in
  setChatStep step_minutes_confirmed w.

(** [onClick] of "Voltar". *)
Definition backClick (w : World) : World :=
  if bool_decide (chatStep w = step_summary) || bool_decide (chatStep w = step_summary_typing)
  then setChatStep step_contact w
  else
    let w := setChatStep step_minutes w in
    let w := setSelectedPackage None w in
    let w := setContactChannel None w in
    setContactValue "" w.

(** [disabled] of "Continuar". *)
Definition continueDisabled (w : World) : bool :=
  negb (bool_decide (is_Some (contactChannel w))) || bool_decide (trim (contactValue w) = "").

Definition continueClick (w : World) : World := setChatStep step_contact_confirmed w.

Definition roomOpenedToast : Effect :=
  Toast false "Sala de chamada aberta"
    "Abrimos a sala de chamada em uma nova aba com a duração escolhida. Depois conectamos o pagamento aqui.".

(** [onClick] of "Gerar chamada de teste"; [origin] is
    [window.location.origin] and [pkg] the non-null [selectedPackage] under
    which alone the button is rendered. *)
Definition generateClick (origin : string) (pkg : PackageOption) (w : World) : World :=
  let seconds := minutes pkg * 60 in
  let url := origin +:+ "/?seconds=" +:+ pretty seconds in
  let w := perform [WindowOpen url "_blank"] w in
  let w := setChatStep step_finished w in
  perform [roomOpenedToast] w.

(** [onClick] of "Criar outra chamada". *)
Definition createAnotherClick (w : World) : World :=
  let w := setChatStep step_minutes w in
  let w := setSelectedPackage None w in
  let w := setContactChannel None w in
  setContactValue "" w.

(** The pacing effect, dependency [chatStep]: the delay in milliseconds
    and the step its timeout moves to. *)
Definition typingEffect (w : World) : World :=
  match chatStep w with
  | step_minutes_confirmed => setPendingTimeout (Some (700, step_contact_typing)) (setIsTyping true w)
  | step_contact_typing => setPendingTimeout (Some (800, step_contact)) (setIsTyping true w)
  | step_contact_confirmed => setPendingTimeout (Some (700, step_summary_typing)) (setIsTyping true w)
  | step_summary_typing => setPendingTimeout (Some (800, step_summary)) (setIsTyping true w)
  | _ => w
  end.

Definition typingCleanup (w : World) : World := setPendingTimeout None w.

Definition timeoutFired (w : World) : World :=
  match pendingTimeout w with
  | Some (_, next) =>
      let w := setPendingTimeout None w in
      let w := setIsTyping false w in
      setChatStep next w
  | None => w
  end.

(** ** Rendering conditions *)

Definition chatVisible (w : World) : bool := negb (hasDurationParam w) && negb (inCall w).

Definition roomVisible (w : World) : bool := hasDurationParam w && inCall w.

(** ** Commit: effects whose dependencies changed

    [old] is the previously committed world.  Cleanups of all re-run
    effects come first, then the effects, each group in declaration
    order. *)
Definition timerDepsChanged (old w : World) : bool :=
  negb (bool_decide (inCall old = inCall w))
  || negb (bool_decide (durationLimitSeconds old = durationLimitSeconds w)).

Definition stepChanged (old w : World) : bool :=
  negb (bool_decide (chatStep old = chatStep w)).

Definition commit (old w : World) : World :=
  let timer := timerDepsChanged old w in
  let step := stepChanged old w in
  let w := if timer && inCall old then timerCleanup w else w in
  let w := if step then typingCleanup w else w in
  let w := if timer then timerEffect w else w in
  if step then typingEffect w else w.

(** ** Mount *)

Definition mount (secondsFromUrl : option string) : World :=
  let w := readSecondsParam secondsFromUrl initialWorld in
  let w := perform [FetchConfig] w in
  let w := timerEffect w in
  let w := autoStart secondsFromUrl w in
  let w := typingEffect w in
  commit initialWorld w.

(** ** Events *)

Inductive Event :=
  | ConfigLoaded (data : option ConfigRow)
  | MediaResolved (r : MediaResult)
  | IntervalFired (handle : positive) (path : UpdaterPath)
  | TimeoutFired
  | ClickPackage (index : nat)
  | ClickChannel (c : ContactChannel)
  | TypeContact (value : string)
  | ClickBack
  | ClickContinue
  | ClickGenerate
  | ClickCreateAnother
  | ClickMic
  | ClickCam
  | ClickHangup.

Section Page.

(** [window.location.origin]. *)
Variable origin : string.

(** A click reaches its handler only if the element is rendered (and
    enabled); a capture result only if a request is pending. *)
Definition handle (ev : Event) (w : World) : World :=
  match ev with
  | ConfigLoaded data => configLoaded data w
  | MediaResolved r =>
      if bool_decide (0 < pendingMedia w)%nat then startCallResume r w else w
  | IntervalFired h path => intervalFired h path w
  | TimeoutFired => timeoutFired w
  | ClickPackage i =>
      match PACKAGES !! i with
      | Some pkg =>
          if chatVisible w
             && (bool_decide (chatStep w = step_intro) || bool_decide (chatStep w = step_minutes))
          then packageClick pkg w else w
      | None => w
      end
  | ClickChannel c =>
      if chatVisible w && bool_decide (chatStep w = step_contact)
         && bool_decide (is_Some (selectedPackage w))
      then setContactChannel (Some c) w else w
  | TypeContact v =>
      if chatVisible w && bool_decide (chatStep w = step_contact)
         && bool_decide (is_Some (selectedPackage w))
         && bool_decide (is_Some (contactChannel w))
      then setContactValue v w else w
  | ClickBack =>
      if chatVisible w
         && (bool_decide (chatStep w = step_contact) || bool_decide (chatStep w = step_summary)
             || bool_decide (chatStep w = step_summary_typing))
      then backClick w else w
  | ClickContinue =>
      if chatVisible w && bool_decide (chatStep w = step_contact) && negb (continueDisabled w)
      then continueClick w else w
  | ClickGenerate =>
      match selectedPackage w with
      | Some pkg =>
          if chatVisible w && bool_decide (chatStep w = step_summary)
          then generateClick origin pkg w else w
      | None => w
      end
  | ClickCreateAnother =>
      if chatVisible w && bool_decide (chatStep w = step_finished)
      then createAnotherClick w else w
  | ClickMic => if roomVisible w then toggleMic w else w
  | ClickCam => if roomVisible w then toggleCam w else w
  | ClickHangup => if roomVisible w then endCall w else w
  end.

Definition dispatch (ev : Event) (w : World) : World := commit w (handle ev w).

Definition run (evs : list Event) (w : World) : World :=
  foldl (λ w ev, dispatch ev w) w evs.

(** The worlds the page can be in. *)
Definition reachable (w : World) : Prop :=
  ∃ secondsFromUrl evs, w = run evs (mount secondsFromUrl).

(** [startCall] as a whole, for the outcome [r] of the capture. *)
Definition startCall (r : MediaResult) (w : World) : World :=
  let w1 := commit w (startCallRequest w) in
  commit w1 (startCallResume r w1).

End Page.

(** * Properties *)

(** ** Fields left alone by [commit] and by the handlers *)

(** Field reads of field updates, evaluated innermost first. *)
Ltac wsimpl :=
  cbv beta iota zeta delta
    [setInCall setConnecting setDuration setMediaState setPermissionError
     setConfigVideoUrl setConfigAudioUrl setDurationLimitSeconds setHasDurationParam
     setChatStep setSelectedPackage setContactChannel setContactValue setIsTyping
     setSelfStreamRef setTimerRef setIntervals setNextHandle setPendingTimeout
     setPendingMedia perform
     inCall connecting duration mediaState permissionError configVideoUrl
     configAudioUrl durationLimitSeconds hasDurationParam chatStep selectedPackage
     contactChannel contactValue isTyping selfStreamRef timerRef intervals nextHandle
     pendingTimeout pendingMedia effects].

Tactic Notation "wsimpl" "in" hyp(H) :=
  cbv beta iota zeta delta
    [setInCall setConnecting setDuration setMediaState setPermissionError
     setConfigVideoUrl setConfigAudioUrl setDurationLimitSeconds setHasDurationParam
     setChatStep setSelectedPackage setContactChannel setContactValue setIsTyping
     setSelfStreamRef setTimerRef setIntervals setNextHandle setPendingTimeout
     setPendingMedia perform
     inCall connecting duration mediaState permissionError configVideoUrl
     configAudioUrl durationLimitSeconds hasDurationParam chatStep selectedPackage
     contactChannel contactValue isTyping selfStreamRef timerRef intervals nextHandle
     pendingTimeout pendingMedia effects] in H.

Tactic Notation "wsimpl" "in" "*" :=
  cbv beta iota zeta delta
    [setInCall setConnecting setDuration setMediaState setPermissionError
     setConfigVideoUrl setConfigAudioUrl setDurationLimitSeconds setHasDurationParam
     setChatStep setSelectedPackage setContactChannel setContactValue setIsTyping
     setSelfStreamRef setTimerRef setIntervals setNextHandle setPendingTimeout
     setPendingMedia perform
     inCall connecting duration mediaState permissionError configVideoUrl
     configAudioUrl durationLimitSeconds hasDurationParam chatStep selectedPackage
     contactChannel contactValue isTyping selfStreamRef timerRef intervals nextHandle
     pendingTimeout pendingMedia effects] in *.

Ltac destruct_world w :=
  destruct w as [? ? ? ? ? ? ? ? ? ? ? ? ? ? ? ? ? ? ? ? ?].

Ltac unfold_commit :=
  unfold commit, timerDepsChanged, stepChanged, timerEffect, timerCleanup,
    typingEffect, typingCleanup, clearInterval.

Ltac unfold_handlers :=
  unfold configLoaded, startCallResume, requestMediaResume, startCallRequest,
    intervalFired, intervalCallback, durationUpdater, timeoutFired, packageClick,
    backClick, continueClick, generateClick, createAnotherClick, toggleMic,
    toggleCam, endCall, stopMediaTracks, clearInterval.

Ltac field_cases := repeat case_match; simplify_eq/=; try done.

Lemma commit_inCall old w : inCall (commit old w) = inCall w.
Proof. unfold_commit. field_cases. Qed.

Lemma commit_duration old w : duration (commit old w) = duration w.
Proof. unfold_commit. field_cases. Qed.

Lemma commit_mediaState old w : mediaState (commit old w) = mediaState w.
Proof. unfold_commit. field_cases. Qed.

Lemma commit_selfStreamRef old w : selfStreamRef (commit old w) = selfStreamRef w.
Proof. unfold_commit. field_cases. Qed.

Lemma commit_durationLimitSeconds old w :
  durationLimitSeconds (commit old w) = durationLimitSeconds w.
Proof. unfold_commit. field_cases. Qed.

Lemma commit_hasDurationParam old w : hasDurationParam (commit old w) = hasDurationParam w.
Proof. unfold_commit. field_cases. Qed.

Lemma commit_pendingMedia old w : pendingMedia (commit old w) = pendingMedia w.
Proof. unfold_commit. field_cases. Qed.

Lemma commit_connecting old w : connecting (commit old w) = connecting w.
Proof. unfold_commit. field_cases. Qed.

Lemma commit_permissionError old w : permissionError (commit old w) = permissionError w.
Proof. unfold_commit. field_cases. Qed.

Lemma commit_chatStep old w : chatStep (commit old w) = chatStep w.
Proof. unfold_commit. field_cases. Qed.

Lemma commit_selectedPackage old w : selectedPackage (commit old w) = selectedPackage w.
Proof. unfold_commit. field_cases. Qed.

Lemma commit_contactChannel old w : contactChannel (commit old w) = contactChannel w.
Proof. unfold_commit. field_cases. Qed.

Lemma commit_contactValue old w : contactValue (commit old w) = contactValue w.
Proof. unfold_commit. field_cases. Qed.

(** Nothing to do when no dependency changed. *)
Lemma commit_same_deps old w :
  inCall old = inCall w →
  durationLimitSeconds old = durationLimitSeconds w →
  chatStep old = chatStep w →
  commit old w = w.
Proof.
  intros Hc Hl Hs. unfold commit, timerDepsChanged, stepChanged.
  rewrite !bool_decide_eq_true_2 by done. reflexivity.
Qed.

(** ** Resolution of the duration limit *)

(** What the mount effect keeps of the [seconds] value (lines 91 to 97):
    the result of [parseInt], when it is not [NaN] and is positive. *)
Definition linkSeconds (secondsFromUrl : option string) : option Z :=
  match secondsFromUrl with
  | Some s =>
      match parseInt s with
      | Some n => if 0 <? n then Some n else None
      | None => None
      end
  | None => None
  end.

(** The remote-config duration: that of the first fetch, in completion
    order, that supplies one. *)
Fixpoint firstRemoteDuration (fetches : list (option ConfigRow)) : option Z :=
  match fetches with
  | [] => None
  | data :: rest =>
      match data ≫= duration_seconds with
      | Some d => Some d
      | None => firstRemoteDuration rest
      end
  end.


(** *** Which link values are valid

    The specification's reading and the one that holds of the code, both
    written without [parseInt]. *)

(** Where a character stands in an alphabet, counting from 0. *)
Fixpoint positionIn (c : ascii) (alphabet : string) : option Z :=
  match alphabet with
  | String x rest => if Ascii.eqb c x then Some 0 else Z.succ <$> positionIn c rest
  | EmptyString => None
  end.

(** The value of a decimal digit; [None] for any other character. *)
Definition decimalDigit (c : ascii) : option Z := positionIn c "0123456789".

Definition decimalValue (digits : list Z) : Z :=
  foldl (λ acc d, 10 * acc + d) 0 digits.

(** The digits of a string made of decimal digits and nothing else. *)
Fixpoint digitsOnly (s : string) : option (list Z) :=
  match s with
  | String c s' =>
      match decimalDigit c, digitsOnly s' with
      | Some d, Some ds => Some (d :: ds)
      | _, _ => None
      end
  | EmptyString => Some []
  end.

(** The specification's entry-link parameter: "a positive integer
    string", decimal digits only, denoting a positive number. *)
Definition positiveIntegerString (s : string) : option Z :=
  match digitsOnly s with
  | Some ds => if 0 <? decimalValue ds then Some (decimalValue ds) else None
  | None => None
  end.


(** The digits a string begins with. *)
Fixpoint leadingDigits (s : string) : list Z :=
  match s with
  | String c s' =>
      match decimalDigit c with
      | Some d => d :: leadingDigits s'
      | None => []
      end
  | EmptyString => []
  end.

Definition dropPlus (s : string) : string :=
  match s with
  | String "+" s' => s'
  | _ => s
  end.

(** The amended reading: a value that begins, after any white space and
    an optional [+], with decimal digits denoting a positive number;
    whatever follows those digits is ignored. *)
Definition leadingPositiveInteger (s : string) : option Z :=
  let ds := leadingDigits (dropPlus (skipWhiteSpace s)) in
  if 0 <? decimalValue ds then Some (decimalValue ds) else None.


(** The config fetches that complete during a run, in order. *)
Definition configsOf (evs : list Event) : list (option ConfigRow) :=
  omap (λ ev, match ev with ConfigLoaded data => Some data | _ => None end) evs.

Lemma mount_durationLimitSeconds secondsFromUrl :
  durationLimitSeconds (mount secondsFromUrl) = linkSeconds secondsFromUrl.
Proof.
  unfold mount. rewrite commit_durationLimitSeconds.
  unfold typingEffect, autoStart, startCallRequest, timerEffect, readSecondsParam, linkSeconds.
  destruct secondsFromUrl as [[|c s]|]; simpl; [done| |done].
  destruct (parseInt (String c s)) as [n|]; [|done].
  destruct (0 <? n); done.
Qed.

Lemma handle_durationLimitSeconds origin ev w :
  durationLimitSeconds (handle origin ev w) =
    match durationLimitSeconds w with
    | Some prev => Some prev
    | None => firstRemoteDuration (configsOf [ev])
    end.
Proof.
  destruct ev; simpl; unfold_handlers; field_cases; by destruct (durationLimitSeconds w).
Qed.

Lemma run_durationLimitSeconds origin evs w :
  durationLimitSeconds (run origin evs w) =
    match durationLimitSeconds w with
    | Some prev => Some prev
    | None => firstRemoteDuration (configsOf evs)
    end.
Proof.
  revert w. induction evs as [|ev evs IH]; intros w; simpl.
  - by destruct (durationLimitSeconds w).
  - rewrite IH. unfold dispatch. rewrite commit_durationLimitSeconds, handle_durationLimitSeconds.
    destruct (durationLimitSeconds w); [done|].
    destruct ev; simpl; try done.
    by destruct (data ≫= duration_seconds).
Qed.

(** Nothing is skipped before a one-byte character that is not white
    space: every longer white space begins with a byte above 127. *)
Lemma skipWhiteSpace_head c t :
  isWhiteSpace1 (byteOf c) = false → byteOf c < 128 →
  skipWhiteSpace (String c t) = String c t.
Proof.
  intros Hws Hlt. cbn [skipWhiteSpace]. rewrite Hws.
  destruct t as [|c2 [|c3 t]]; [done| |].
  - unfold isWhiteSpace2. by rewrite (proj2 (Z.eqb_neq _ 194)) by lia.
  - unfold isWhiteSpace2, isWhiteSpace3.
    rewrite (proj2 (Z.eqb_neq _ 194)), (proj2 (Z.eqb_neq _ 225)),
      (proj2 (Z.eqb_neq _ 226)), (proj2 (Z.eqb_neq _ 227)),
      (proj2 (Z.eqb_neq _ 239)) by lia.
    reflexivity.
Qed.

Lemma digitValue_byte c d : digitValue c = Some d → 48 ≤ byteOf c ≤ 57 ∧ d = byteOf c - 48.
Proof.
  unfold digitValue, byteOf.
  destruct ((48 <=? Z.of_N (N_of_ascii c)) && (Z.of_N (N_of_ascii c) <=? 57)) eqn:Hr; [|done].
  intros [= <-]. apply andb_true_iff in Hr. lia.
Qed.











Definition remoteDuration (d : Z) : Event :=
  ConfigLoaded (Some {| video_url := None; audio_url := None; duration_seconds := Some d |}).




(** The two readings on sample values: they differ on trailing text, a
    fraction, a sign and leading white space. *)
Example link_value_readings :
  positiveIntegerString "600" = Some 600 ∧ leadingPositiveInteger "600" = Some 600
  ∧ positiveIntegerString "12.9" = None ∧ leadingPositiveInteger "12.9" = Some 12
  ∧ positiveIntegerString " +7 days" = None ∧ leadingPositiveInteger " +7 days" = Some 7
  ∧ positiveIntegerString "abc" = None ∧ leadingPositiveInteger "abc" = None
  ∧ positiveIntegerString "0" = None ∧ leadingPositiveInteger "0" = None
  ∧ positiveIntegerString "-5" = None ∧ leadingPositiveInteger "-5" = None.
Proof. repeat split; vm_compute; reflexivity. Qed.

(** The resolver on the specification's sample links. *)
Example link_600_ignores_config :
  effectiveLimitSeconds
    (durationLimitSeconds (run "" [remoteDuration 900] (mount (Some "600")))) = 600.
Proof. vm_compute. reflexivity. Qed.

Example config_900_fills_absent_link :
  effectiveLimitSeconds (durationLimitSeconds (mount None)) = 1800
  ∧ effectiveLimitSeconds
      (durationLimitSeconds (run "" [remoteDuration 900] (mount None))) = 900.
Proof. split; vm_compute; reflexivity. Qed.

Example later_fetch_does_not_override :
  effectiveLimitSeconds
    (durationLimitSeconds
       (run "" [ConfigLoaded None; remoteDuration 900; remoteDuration 1200] (mount None)))
  = 900.
Proof. vm_compute. reflexivity. Qed.

(** ** Malformed [seconds] parameter *)

(** The flag and the limit treat a parameter that does not parse as a
    positive integer as absent. *)
Lemma mount_hasDurationParam secondsFromUrl :
  hasDurationParam (mount secondsFromUrl) = bool_decide (is_Some (linkSeconds secondsFromUrl)).
Proof.
  unfold mount. rewrite commit_hasDurationParam.
  unfold typingEffect, autoStart, startCallRequest, timerEffect, readSecondsParam, linkSeconds.
  destruct secondsFromUrl as [[|c s]|]; simpl; [done| |done].
  destruct (parseInt (String c s)) as [n|]; [|done].
  destruct (0 <? n); done.
Qed.

(** The auto-start effect looks at the raw parameter only. *)
Lemma mount_pendingMedia secondsFromUrl :
  pendingMedia (mount secondsFromUrl) = if truthy secondsFromUrl then 1%nat else 0%nat.
Proof.
  unfold mount. rewrite commit_pendingMedia.
  unfold typingEffect, autoStart, startCallRequest, timerEffect, readSecondsParam.
  destruct secondsFromUrl as [[|c s]|]; simpl; [done| |done].
  destruct (parseInt (String c s)) as [n|]; [|done].
  destruct (0 <? n); done.
Qed.

(** C2. With [?seconds=abc] (likewise [0], [-5]) the flag stays false and
    no limit is set, yet the capture is requested at mount, which an
    absent parameter does not do; once the capture is granted the page is
    in a call with neither the chat nor the call room rendered. *)
Theorem malformed_seconds_still_autostarts :
  hasDurationParam (mount (Some "abc")) = false
  ∧ durationLimitSeconds (mount (Some "abc")) = None
  ∧ connecting (mount (Some "abc")) = true
  ∧ effects (mount (Some "abc")) = [FetchConfig; GetUserMedia]
  ∧ effects (mount (Some "0")) = [FetchConfig; GetUserMedia]
  ∧ effects (mount (Some "-5")) = [FetchConfig; GetUserMedia]
  ∧ effects (mount None) = [FetchConfig]
  ∧ connecting (mount None) = false
  ∧ inCall (dispatch "" (MediaResolved (Granted [AudioTrack; VideoTrack])) (mount (Some "abc"))) = true
  ∧ chatVisible (dispatch "" (MediaResolved (Granted [AudioTrack; VideoTrack])) (mount (Some "abc"))) = false
  ∧ roomVisible (dispatch "" (MediaResolved (Granted [AudioTrack; VideoTrack])) (mount (Some "abc"))) = false.
Proof. repeat split; vm_compute; reflexivity. Qed.

(** ** [endCall] *)

Lemma stopMediaTracks_idem w : stopMediaTracks (stopMediaTracks w) = stopMediaTracks w.
Proof.
  unfold stopMediaTracks. destruct (selfStreamRef w) eqn:Hs; simpl; [done|].
  by rewrite Hs.
Qed.

Lemma endCall_idem w : endCall (endCall w) = endCall w.
Proof.
  destruct w as [? ? ? ? ? ? ? ? ? ? ? ? ? ? stream timer ? ? ? ? ?].
  unfold endCall, stopMediaTracks, clearInterval.
  destruct stream, timer; wsimpl; reflexivity.
Qed.

Lemma endCall_fields w :
  inCall (endCall w) = false ∧ duration (endCall w) = 0
  ∧ selfStreamRef (endCall w) = None ∧ timerRef (endCall w) = None.
Proof.
  destruct w as [? ? ? ? ? ? ? ? ? ? ? ? ? ? stream timer ? ? ? ? ?].
  unfold endCall, stopMediaTracks, clearInterval.
  destruct stream, timer; wsimpl; done.
Qed.

(** C5. From any state, two [endCall]s in a row leave the session not in
    call, with elapsed seconds 0, no stream retained and no timer handle;
    the second call changes nothing at all (no state change, no further
    track stop or [clearInterval]), and releasing tracks twice is the same
    as releasing them once. *)
Theorem endCall_twice w :
  inCall (endCall (endCall w)) = false
  ∧ duration (endCall (endCall w)) = 0
  ∧ selfStreamRef (endCall (endCall w)) = None
  ∧ timerRef (endCall (endCall w)) = None
  ∧ endCall (endCall w) = endCall w
  ∧ stopMediaTracks (stopMediaTracks w) = stopMediaTracks w.
Proof.
  rewrite endCall_idem. destruct (endCall_fields w) as (Hc & Hd & Hs & Ht).
  split; [exact Hc|]. split; [exact Hd|]. split; [exact Hs|]. split; [exact Ht|].
  split; [reflexivity|]. apply stopMediaTracks_idem.
Qed.

(** ** Toggles without a stream *)

(** C8, as stated, fails: with no stream the mic flag still flips. *)
Lemma toggle_without_stream_flips_flag :
  selfStreamRef initialWorld = None
  ∧ mediaState (toggleMic initialWorld) ≠ mediaState initialWorld
  ∧ mediaState (toggleCam initialWorld) ≠ mediaState initialWorld.
Proof. split; [reflexivity|]. split; intros H; discriminate H. Qed.

(** C8, amended. With no stream, [toggleMic] and [toggleCam] flip their
    flag and change nothing else: no track is touched, nothing fails. *)
Theorem toggle_without_stream w :
  selfStreamRef w = None →
  toggleMic w
    = setMediaState {| micOn := negb (micOn (mediaState w)); camOn := camOn (mediaState w) |} w
  ∧ toggleCam w
    = setMediaState {| micOn := micOn (mediaState w); camOn := negb (camOn (mediaState w)) |} w.
Proof.
  destruct_world w. wsimpl. intros ->. unfold toggleMic, toggleCam. wsimpl. done.
Qed.

Lemma toggle_without_stream_witness :
  toggleMic initialWorld
    = setMediaState {| micOn := false; camOn := true |} initialWorld
  ∧ toggleCam initialWorld
    = setMediaState {| micOn := true; camOn := false |} initialWorld.
Proof. apply (toggle_without_stream initialWorld). reflexivity. Defined.

(** ** Chat flow: back and generate *)

Lemma chatVisible_true w :
  chatVisible w = true → hasDurationParam w = false ∧ inCall w = false.
Proof.
  unfold chatVisible. intros [H1 H2]%andb_true_iff.
  by apply negb_true_iff in H1, H2.
Qed.

(** C10. Back pressed in [contact] returns to [minutes] and discards the
    package, the channel and the contact value; pressed in [summary] or
    [summary_typing] it only moves the step to [contact]. *)
Theorem back_discards_only_from_contact origin w :
  chatVisible w = true →
  (chatStep w = step_contact →
     chatStep (dispatch origin ClickBack w) = step_minutes
     ∧ selectedPackage (dispatch origin ClickBack w) = None
     ∧ contactChannel (dispatch origin ClickBack w) = None
     ∧ contactValue (dispatch origin ClickBack w) = "")
  ∧ (chatStep w = step_summary ∨ chatStep w = step_summary_typing →
     chatStep (dispatch origin ClickBack w) = step_contact
     ∧ selectedPackage (dispatch origin ClickBack w) = selectedPackage w
     ∧ contactChannel (dispatch origin ClickBack w) = contactChannel w
     ∧ contactValue (dispatch origin ClickBack w) = contactValue w).
Proof.
  intros Hv. unfold dispatch.
  rewrite commit_chatStep, commit_selectedPackage, commit_contactChannel, commit_contactValue.
  unfold handle. rewrite Hv. unfold backClick.
  split.
  - intros Hs. rewrite Hs. done.
  - intros [Hs|Hs]; rewrite Hs; done.
Qed.

Lemma back_discards_only_from_contact_witness :
  (chatStep (dispatch "" ClickBack
      (run "" [ClickPackage 0; TimeoutFired; TimeoutFired; ClickChannel email] (mount None)))
     = step_minutes
   ∧ selectedPackage (dispatch "" ClickBack
      (run "" [ClickPackage 0; TimeoutFired; TimeoutFired; ClickChannel email] (mount None)))
     = None
   ∧ contactChannel (dispatch "" ClickBack
      (run "" [ClickPackage 0; TimeoutFired; TimeoutFired; ClickChannel email] (mount None)))
     = None
   ∧ contactValue (dispatch "" ClickBack
      (run "" [ClickPackage 0; TimeoutFired; TimeoutFired; ClickChannel email] (mount None)))
     = "").
Proof.
  apply (back_discards_only_from_contact ""
    (run "" [ClickPackage 0; TimeoutFired; TimeoutFired; ClickChannel email] (mount None)));
    vm_compute; reflexivity.
Defined.

(** With the timer dependencies unchanged, [commit] only re-runs the
    pacing effect. *)
Lemma commit_timer_deps_same old w :
  inCall old = inCall w →
  durationLimitSeconds old = durationLimitSeconds w →
  commit old w = if stepChanged old w then typingEffect (typingCleanup w) else w.
Proof.
  intros Hc Hl. unfold commit, timerDepsChanged.
  rewrite !bool_decide_eq_true_2 by done. cbn [negb orb andb].
  destruct (stepChanged old w); reflexivity.
Qed.

(** C9. Generate, pressed in [summary] with a package selected, opens
    [origin/?seconds=minutes*60] in a new context and moves the chat to
    [finished]; for a 10-minute package the link is [origin/?seconds=600]. *)
Theorem generate_opens_handoff_link origin pkg w :
  chatVisible w = true →
  chatStep w = step_summary →
  selectedPackage w = Some pkg →
  chatStep (dispatch origin ClickGenerate w) = step_finished
  ∧ effects (dispatch origin ClickGenerate w)
    = effects w
      ++ [WindowOpen (origin +:+ "/?seconds=" +:+ pretty (minutes pkg * 60)) "_blank";
          roomOpenedToast]
  ∧ (minutes pkg = 10 →
     origin +:+ "/?seconds=" +:+ pretty (minutes pkg * 60) = origin +:+ "/?seconds=600").
Proof.
  intros Hv Hs Hp. unfold dispatch. rewrite commit_chatStep.
  unfold handle. rewrite Hp, Hv, Hs.
  rewrite bool_decide_eq_true_2 by done. cbv [andb].
  split; [reflexivity|]. split.
  - rewrite commit_timer_deps_same by reflexivity.
    unfold stepChanged, generateClick. destruct_world w. wsimpl in Hs. subst.
    wsimpl. rewrite bool_decide_eq_false_2 by done. cbv [negb].
    unfold typingEffect, typingCleanup. wsimpl.
    by rewrite <- app_assoc.
  - intros ->. reflexivity.
Qed.

(** The scenario: 10-minute package, e-mail, ["a@b.com"], up to the
    summary. *)
Definition summaryScenario : World :=
  run "https://call.example"
    [ClickPackage 0; TimeoutFired; TimeoutFired; ClickChannel email;
     TypeContact "a@b.com"; ClickContinue; TimeoutFired; TimeoutFired] (mount None).

Lemma generate_opens_handoff_link_witness :
  contactChannel summaryScenario = Some email
  ∧ contactValue summaryScenario = "a@b.com"
  ∧ chatStep (dispatch "https://call.example" ClickGenerate summaryScenario) = step_finished
  ∧ effects (dispatch "https://call.example" ClickGenerate summaryScenario)
    = effects summaryScenario
      ++ [WindowOpen "https://call.example/?seconds=600" "_blank"; roomOpenedToast].
Proof.
  split; [vm_compute; reflexivity|]. split; [vm_compute; reflexivity|].
  destruct (generate_opens_handoff_link "https://call.example"
    {| id := "p10"; label := "10 minutos"; minutes := 10; price := 4990 |}
    summaryScenario) as (Hstep & Heff & Hurl);
    [vm_compute; reflexivity..|].
  split; [exact Hstep|].
  rewrite Heff, (Hurl eq_refl). reflexivity.
Defined.

(** ** Capture failure *)

Lemma startCall_denied w :
  startCall Denied w = startCallResume Denied (startCallRequest w).
Proof.
  unfold startCall. rewrite (commit_same_deps w) by reflexivity.
  by rewrite commit_same_deps by reflexivity.
Qed.

(** Entering the call changes [inCall], so the timer effect runs, with no
    cleanup to run before it. *)
Lemma startCall_granted stream w :
  inCall w = false →
  startCall (Granted stream) w
  = timerEffect (startCallResume (Granted stream) (startCallRequest w)).
Proof.
  intros Hc. unfold startCall. rewrite (commit_same_deps w) by reflexivity.
  unfold commit, timerDepsChanged, stepChanged.
  rewrite (bool_decide_eq_true_2 (chatStep _ = chatStep _)) by reflexivity.
  rewrite (bool_decide_eq_true_2 (durationLimitSeconds _ = durationLimitSeconds _))
    by reflexivity.
  rewrite (bool_decide_eq_false_2 (inCall _ = inCall _)).
  2:{ change (inCall w ≠ true). by rewrite Hc. }
  change (inCall (startCallRequest w)) with (inCall w). rewrite Hc.
  reflexivity.
Qed.

(** C6. When the capture request is rejected from a session that is not in
    call: in-call stays false, connecting is cleared, the permission error
    is the fixed message, and no interval is started.  Invoking
    [startCall] again with the capture granted then puts the session in
    call, with the error cleared, elapsed seconds 0 and the interval
    running. *)
Theorem capture_failure_is_retryable w stream :
  inCall w = false →
  inCall (startCall Denied w) = false
  ∧ connecting (startCall Denied w) = false
  ∧ permissionError (startCall Denied w) = Some humanMessage
  ∧ selfStreamRef (startCall Denied w) = selfStreamRef w
  ∧ timerRef (startCall Denied w) = timerRef w
  ∧ intervals (startCall Denied w) = intervals w
  ∧ effects (startCall Denied w) = effects w ++ [GetUserMedia; ConsoleError; permissionToast]
  ∧ inCall (startCall (Granted stream) (startCall Denied w)) = true
  ∧ connecting (startCall (Granted stream) (startCall Denied w)) = false
  ∧ permissionError (startCall (Granted stream) (startCall Denied w)) = None
  ∧ duration (startCall (Granted stream) (startCall Denied w)) = 0
  ∧ selfStreamRef (startCall (Granted stream) (startCall Denied w))
    = Some (freshTrack <$> stream)
  ∧ (∃ handle,
      timerRef (startCall (Granted stream) (startCall Denied w)) = Some handle
      ∧ intervals (startCall (Granted stream) (startCall Denied w)) !! handle
        = Some (effectiveLimitSeconds (durationLimitSeconds w))).
Proof.
  intros Hc.
  rewrite startCall_granted by (rewrite startCall_denied; exact Hc).
  rewrite startCall_denied.
  destruct_world w. wsimpl in Hc. subst.
  unfold timerEffect, startCallResume, requestMediaResume, startCallRequest.
  wsimpl.
  repeat split; try reflexivity.
  - by rewrite <- !app_assoc.
  - eexists. split; [reflexivity|]. apply lookup_insert_eq.
Qed.

Lemma capture_failure_is_retryable_witness :
  inCall (startCall Denied initialWorld) = false
  ∧ permissionError (startCall Denied initialWorld) = Some humanMessage
  ∧ intervals (startCall Denied initialWorld) = intervals initialWorld
  ∧ inCall (startCall (Granted [AudioTrack; VideoTrack]) (startCall Denied initialWorld)) = true.
Proof.
  destruct (capture_failure_is_retryable initialWorld [AudioTrack; VideoTrack] eq_refl)
    as (H1 & _ & H3 & _ & _ & H6 & _ & H8 & _).
  exact (conj H1 (conj H3 (conj H6 H8))).
Defined.


(** ** Invariants of the reachable worlds *)

(** The flag a track of kind [k] is driven by. *)
Definition flagFor (m : MediaState) (k : TrackKind) : bool :=
  match k with AudioTrack => micOn m | VideoTrack => camOn m end.

(** Every captured track is enabled exactly when its flag is on. *)
Definition tracksReflectFlags (w : World) : Prop :=
  ∀ tracks, selfStreamRef w = Some tracks →
    Forall (λ t, enabled t = flagFor (mediaState w) (kind t)) tracks.

(** While a capture request is pending the session is not in call and the
    flags still have their initial values. *)
Definition captureInv (w : World) : Prop :=
  (0 < pendingMedia w)%nat →
  inCall w = false ∧ mediaState w = {| micOn := true; camOn := true |}
  ∧ pendingMedia w = 1%nat.

Definition mediaInv (w : World) : Prop := tracksReflectFlags w ∧ captureInv w.

Definition mediaView (w : World) :=
  (selfStreamRef w, mediaState w, pendingMedia w, inCall w).

Lemma mediaInv_view w w' : mediaView w = mediaView w' → mediaInv w → mediaInv w'.
Proof.
  unfold mediaView, mediaInv, tracksReflectFlags, captureInv.
  intros [= Hs Hm Hp Hc]. rewrite Hs, Hm, Hp, Hc. done.
Qed.

Lemma mediaInv_endCall w : mediaInv w → mediaInv (endCall w).
Proof.
  unfold mediaInv, tracksReflectFlags, captureInv.
  destruct w as [? ? ? ? ? ? ? ? ? ? ? ? ? ? stream timer ? ? ? ? ?].
  unfold endCall, stopMediaTracks, clearInterval.
  destruct stream, timer; wsimpl; intros [Ht Hp]; (split; [done|]);
    intros Hpos; destruct (Hp Hpos) as (_ & ? & ?); done.
Qed.

Lemma mediaInv_intervalCallback limit path w :
  mediaInv w → mediaInv (intervalCallback limit path w).
Proof.
  intros Hinv. unfold intervalCallback, durationUpdater.
  destruct (limit <=? duration w + 1); [destruct path|].
  - apply mediaInv_endCall. by eapply mediaInv_view; [|exact Hinv].
  - eapply mediaInv_view; [|by apply mediaInv_endCall]. done.
  - by eapply mediaInv_view; [|exact Hinv].
Qed.

Lemma Forall_setEnabled k v m m' tracks :
  flagFor m' k = v →
  (∀ k', k' ≠ k → flagFor m' k' = flagFor m k') →
  Forall (λ t, enabled t = flagFor m (kind t)) tracks →
  Forall (λ t, enabled t = flagFor m' (kind t)) (setEnabled k v <$> tracks).
Proof.
  intros Hk Hother Hall. apply Forall_fmap. eapply Forall_impl; [exact Hall|].
  intros t Ht. unfold setEnabled. simpl. case_decide as Hkind; simpl.
  - by rewrite Hkind, Hk.
  - rewrite Ht. symmetry. by apply Hother.
Qed.

Lemma mediaInv_toggleMic w : inCall w = true → mediaInv w → mediaInv (toggleMic w).
Proof.
  unfold mediaInv, tracksReflectFlags, captureInv.
  destruct w as [? ? ? [mic cam] ? ? ? ? ? ? ? ? ? ? stream ? ? ? ? ? ?].
  unfold toggleMic. wsimpl. intros -> [Ht Hp]. split.
  - destruct stream as [tracks|]; wsimpl; [|done]. intros ? [= <-].
    eapply Forall_setEnabled; [done| |by apply Ht]. by intros [].
  - destruct stream; wsimpl; intros Hpos; by destruct (Hp Hpos) as (? & _).
Qed.

Lemma mediaInv_toggleCam w : inCall w = true → mediaInv w → mediaInv (toggleCam w).
Proof.
  unfold mediaInv, tracksReflectFlags, captureInv.
  destruct w as [? ? ? [mic cam] ? ? ? ? ? ? ? ? ? ? stream ? ? ? ? ? ?].
  unfold toggleCam. wsimpl. intros -> [Ht Hp]. split.
  - destruct stream as [tracks|]; wsimpl; [|done]. intros ? [= <-].
    eapply Forall_setEnabled; [done| |by apply Ht]. by intros [].
  - destruct stream; wsimpl; intros Hpos; by destruct (Hp Hpos) as (? & _).
Qed.

Lemma mediaInv_startCallResume r w :
  (0 < pendingMedia w)%nat → mediaInv w → mediaInv (startCallResume r w).
Proof.
  unfold mediaInv, tracksReflectFlags, captureInv.
  intros Hpos [Ht Hp]. destruct (Hp Hpos) as (Hc & Hm & H1).
  destruct_world w. wsimpl in *. subst.
  unfold startCallResume, requestMediaResume. destruct r; wsimpl.
  - split; [|lia]. intros ? [= <-]. apply Forall_fmap, Forall_true. by intros [].
  - split; [done|lia].
Qed.

Lemma roomVisible_inCall w : roomVisible w = true → inCall w = true.
Proof. unfold roomVisible. by intros [_ ?]%andb_true_iff. Qed.

Ltac same_view Hinv :=
  eapply mediaInv_view; [|exact Hinv];
  unfold configLoaded, timeoutFired, packageClick, backClick, continueClick,
    generateClick, createAnotherClick;
  repeat case_match; reflexivity.

Lemma mediaInv_handle origin ev w : mediaInv w → mediaInv (handle origin ev w).
Proof.
  intros Hinv. unfold handle.
  destruct ev as [data|r|h path| |i|c|v| | | | | | | ].
  - same_view Hinv.
  - case_bool_decide; [by apply mediaInv_startCallResume|done].
  - unfold intervalFired. destruct (intervals w !! h); [|done].
    by apply mediaInv_intervalCallback.
  - same_view Hinv.
  - destruct (PACKAGES !! i); [|done]. case_match; [|done]. same_view Hinv.
  - case_match; [|done]. same_view Hinv.
  - case_match; [|done]. same_view Hinv.
  - case_match; [|done]. same_view Hinv.
  - case_match; [|done]. same_view Hinv.
  - destruct (selectedPackage w); [|done]. case_match; [|done]. same_view Hinv.
  - case_match; [|done]. same_view Hinv.
  - destruct (roomVisible w) eqn:Hv; [|done].
    by apply mediaInv_toggleMic; [apply roomVisible_inCall|].
  - destruct (roomVisible w) eqn:Hv; [|done].
    by apply mediaInv_toggleCam; [apply roomVisible_inCall|].
  - case_match; [|done]. by apply mediaInv_endCall.
Qed.

Lemma mediaInv_commit old w : mediaInv w → mediaInv (commit old w).
Proof.
  apply mediaInv_view. unfold mediaView.
  by rewrite commit_selfStreamRef, commit_mediaState, commit_pendingMedia, commit_inCall.
Qed.

(** In call, exactly one interval is active: the one recorded in
    [timerRef], created with the current effective limit.  Out of call
    there is none. *)
Definition timerInv (w : World) : Prop :=
  if inCall w
  then ∃ h, timerRef w = Some h
            ∧ intervals w = {[ h := effectiveLimitSeconds (durationLimitSeconds w) ]}
  else timerRef w = None ∧ intervals w = ∅.

Lemma endCall_setDuration n w : endCall (setDuration n w) = endCall w.
Proof.
  destruct w as [? ? ? ? ? ? ? ? ? ? ? ? ? ? stream timer ? ? ? ? ?].
  unfold endCall, stopMediaTracks, clearInterval.
  destruct stream, timer; wsimpl; reflexivity.
Qed.

Lemma endCall_no_timers w : timerInv w → intervals (endCall w) = ∅.
Proof.
  unfold timerInv.
  destruct w as [c ? ? ? ? ? ? ? ? ? ? ? ? ? stream timer ? ? ? ? ?].
  unfold endCall, stopMediaTracks, clearInterval.
  destruct c, stream, timer; wsimpl; try (by intros (? & ? & ?)); try (by intros [? ?]);
    intros (h & [= <-] & ->); apply delete_singleton_eq.
Qed.

(** What a handler does to the timer: nothing, or what [endCall] does. *)
Definition timersKept (w w1 : World) : Prop :=
  timerRef w1 = timerRef w ∧ intervals w1 = intervals w
  ∧ (inCall w = true → inCall w1 = true).

Definition timersEnded (w w1 : World) : Prop :=
  inCall w1 = false ∧ timerRef w1 = None ∧ intervals w1 = intervals (endCall w).

Lemma timersEnded_endCall w : timersEnded w (endCall w).
Proof. destruct (endCall_fields w) as (? & _ & _ & ?). by split_and!. Qed.

Ltac kept :=
  left; unfold timersKept, configLoaded, startCallResume, requestMediaResume,
    timeoutFired, packageClick, backClick, continueClick, generateClick,
    createAnotherClick, toggleMic, toggleCam;
  repeat case_match; split_and!; try reflexivity; try done.

Lemma handle_timers origin ev w :
  timersKept w (handle origin ev w) ∨ timersEnded w (handle origin ev w).
Proof.
  unfold handle.
  destruct ev as [data|r|h path| |i|c|v| | | | | | | ]; try (by kept).
  - case_bool_decide; [|by kept]. left. unfold timersKept.
    destruct r; split_and!; try reflexivity. intros Hc; exact Hc.
  - unfold intervalFired. destruct (intervals w !! h) as [limit|]; [|by kept].
    unfold intervalCallback, durationUpdater.
    destruct (limit <=? duration w + 1) as [|] eqn:?; [|by kept].
    right. destruct path.
    + rewrite endCall_setDuration. apply timersEnded_endCall.
    + destruct (timersEnded_endCall w) as (? & ? & ?). by split_and!.
  - destruct (roomVisible w); [|by kept]. right. apply timersEnded_endCall.
Qed.

Lemma timerInv_no_timers w :
  inCall w = false → timerRef w = None → intervals w = ∅ → timerInv w.
Proof. unfold timerInv. by intros -> ? ?. Qed.

Lemma timerInv_dispatch origin ev w : timerInv w → timerInv (dispatch origin ev w).
Proof.
  intros Hinv. unfold dispatch.
  set (w1 := handle origin ev w).
  assert (Hcases :
    (timerRef w1 = timerRef w ∧ intervals w1 = intervals w
     ∧ (inCall w = true → inCall w1 = true))
    ∨ (inCall w1 = false ∧ timerRef w1 = None ∧ intervals w1 = ∅)).
  { destruct (handle_timers origin ev w) as [Hk|(Hc & Ht & Hi)]; [by left|right].
    fold w1 in Hc, Ht, Hi. rewrite Hi. split_and!; [done..|].
    by apply endCall_no_timers. }
  clearbody w1. unfold commit.
  set (changed := timerDepsChanged w w1).
  set (step := stepChanged w w1).
  assert (Htyping : ∀ (b : bool) w2, timerInv w2 →
            timerInv (if b then typingEffect w2 else w2)).
  { intros [] w2 H2; [|done]. unfold typingEffect. by repeat case_match. }
  assert (Hclean : ∀ (b : bool) w2, timerInv w2 →
            timerInv (if b then typingCleanup w2 else w2)).
  { intros [] w2 H2; done. }
  apply Htyping.
  destruct changed eqn:Hchanged.
  - (* the timer effect re-runs *)
    assert (Hnone : ∀ w2, timerRef w2 = None → intervals w2 = ∅ →
              timerInv (timerEffect (if step then typingCleanup w2 else w2))).
    { intros w2 Ht Hi. unfold timerEffect, timerInv.
      destruct step; unfold typingCleanup;
        destruct w2 as [c ? ? ? ? ? ? ? ? ? ? ? ? ? ? ? ? ? ? ? ?];
        wsimpl in Ht; wsimpl in Hi; subst;
        destruct c; wsimpl; try done; eexists; by rewrite insert_empty. }
    cbn [andb]. destruct Hcases as [(Ht & Hi & Hc)|(Hc & Ht & Hi)].
    + unfold timerInv in Hinv. destruct (inCall w) eqn:Hold.
      * destruct Hinv as (h & Hh & Hint).
        unfold timerCleanup, clearInterval. rewrite Ht, Hh.
        apply Hnone; [reflexivity|].
        change (delete h (intervals w1) = ∅).
        rewrite Hi, Hint. apply delete_singleton_eq.
      * destruct Hinv as [Hh Hint]. apply Hnone; congruence.
    + destruct (inCall w); [|by apply Hnone].
      unfold timerCleanup. rewrite Ht. by apply Hnone.
  - (* same timer dependencies *)
    cbn [andb]. apply Hclean.
    unfold changed, timerDepsChanged in Hchanged.
    apply orb_false_iff in Hchanged as [Hc Hl].
    apply negb_false_iff, bool_decide_eq_true in Hc, Hl.
    destruct Hcases as [(Ht & Hi & _)|(Hc1 & Ht & Hi)].
    + unfold timerInv in *. by rewrite Ht, Hi, <- Hc, <- Hl.
    + by apply timerInv_no_timers.
Qed.

(** The world after mount. *)
Lemma commit_not_in_call old w :
  inCall old = false → inCall w = false →
  timerRef (commit old w) = timerRef w ∧ intervals (commit old w) = intervals w.
Proof.
  intros Ho Hw. unfold commit. rewrite Ho, andb_false_r. clear Ho.
  destruct (timerDepsChanged old w), (stepChanged old w);
    unfold timerEffect, typingEffect, typingCleanup;
    destruct w as [? ? ? ? ? ? ? ? ? step ? ? ? ? ? ? ? ? ? ? ?];
    wsimpl in Hw; subst; destruct step; wsimpl; done.
Qed.

Lemma mount_view secondsFromUrl :
  mediaView (mount secondsFromUrl)
  = (None, {| micOn := true; camOn := true |},
     if truthy secondsFromUrl then 1%nat else 0%nat, false)
  ∧ timerRef (mount secondsFromUrl) = None
  ∧ intervals (mount secondsFromUrl) = ∅.
Proof.
  unfold mediaView, mount.
  rewrite commit_selfStreamRef, commit_mediaState, commit_pendingMedia, commit_inCall.
  set (w := typingEffect _).
  assert (Hw : inCall w = false ∧ selfStreamRef w = None
               ∧ mediaState w = {| micOn := true; camOn := true |}
               ∧ pendingMedia w = (if truthy secondsFromUrl then 1%nat else 0%nat)
               ∧ timerRef w = None ∧ intervals w = ∅).
  { unfold w, typingEffect, autoStart, startCallRequest, timerEffect, readSecondsParam.
    destruct secondsFromUrl as [[|c s]|]; simpl; [done| |done].
    destruct (parseInt (String c s)) as [n|]; [|done].
    destruct (0 <? n); done. }
  destruct Hw as (Hc & Hs & Hm & Hp & Ht & Hi).
  destruct (commit_not_in_call initialWorld w eq_refl Hc) as [Ht' Hi'].
  rewrite Hc, Hs, Hm, Hp, Ht', Hi'. done.
Qed.

Lemma mediaInv_mount secondsFromUrl : mediaInv (mount secondsFromUrl).
Proof.
  destruct (mount_view secondsFromUrl) as ([= Hs Hm Hp Hc] & _).
  split.
  - intros tracks. by rewrite Hs.
  - unfold captureInv. rewrite Hc, Hm, Hp.
    destruct (truthy secondsFromUrl); [done|lia].
Qed.

Lemma timerInv_mount secondsFromUrl : timerInv (mount secondsFromUrl).
Proof.
  destruct (mount_view secondsFromUrl) as ([= _ _ _ Hc] & Ht & Hi).
  by apply timerInv_no_timers.
Qed.

Lemma reachable_inv origin w : reachable origin w → mediaInv w ∧ timerInv w.
Proof.
  intros (secondsFromUrl & evs & ->).
  assert (Hrun : ∀ evs w, mediaInv w ∧ timerInv w → mediaInv (run origin evs w) ∧ timerInv (run origin evs w)).
  { clear. intros evs. induction evs as [|ev evs IH]; intros w [Hm Ht]; [done|].
    apply IH. split.
    - apply mediaInv_commit, mediaInv_handle, Hm.
    - apply timerInv_dispatch, Ht. }
  apply Hrun. split; [apply mediaInv_mount|apply timerInv_mount].
Qed.

Lemma reachable_dispatch origin ev w : reachable origin w → reachable origin (dispatch origin ev w).
Proof.
  intros (secondsFromUrl & evs & ->). exists secondsFromUrl, (evs ++ [ev]).
  unfold run. by rewrite foldl_app.
Qed.


(** ** Toggling twice *)

Lemma setEnabled_twice k v tracks :
  Forall (λ t, kind t = k → enabled t = v) tracks →
  setEnabled k v <$> (setEnabled k (negb v) <$> tracks) = tracks.
Proof.
  induction 1 as [|[k' e] tracks Ht _ IH]; [done|].
  cbn [fmap list_fmap]. f_equal; [|exact IH].
  unfold setEnabled. cbn [kind enabled] in *.
  destruct (decide (k' = k)) as [Hk|Hk]; cbn [kind].
  - rewrite decide_True by done. by rewrite Ht.
  - by rewrite decide_False.
Qed.

Lemma toggleMic_twice_inv w : tracksReflectFlags w → toggleMic (toggleMic w) = w.
Proof.
  unfold tracksReflectFlags.
  destruct w as [? ? ? [mic cam] ? ? ? ? ? ? ? ? ? ? stream ? ? ? ? ? ?].
  unfold toggleMic. destruct stream as [tracks|]; wsimpl; cbn [micOn camOn]; intros Ht.
  - rewrite negb_involutive, setEnabled_twice; [done|].
    eapply Forall_impl; [by apply Ht|]. by intros t -> ->.
  - by rewrite negb_involutive.
Qed.

Lemma toggleCam_twice_inv w : tracksReflectFlags w → toggleCam (toggleCam w) = w.
Proof.
  unfold tracksReflectFlags.
  destruct w as [? ? ? [mic cam] ? ? ? ? ? ? ? ? ? ? stream ? ? ? ? ? ?].
  unfold toggleCam. destruct stream as [tracks|]; wsimpl; cbn [micOn camOn]; intros Ht.
  - rewrite negb_involutive, setEnabled_twice; [done|].
    eapply Forall_impl; [by apply Ht|]. by intros t -> ->.
  - by rewrite negb_involutive.
Qed.

(** C7. In every world the page can be in, [toggleMic] applied twice
    restores the mic flag and the enabled state of every captured track:
    the world is the original one again. *)
Theorem toggleMic_twice origin w :
  reachable origin w →
  micOn (mediaState (toggleMic (toggleMic w))) = micOn (mediaState w)
  ∧ selfStreamRef (toggleMic (toggleMic w)) = selfStreamRef w
  ∧ toggleMic (toggleMic w) = w.
Proof.
  intros Hr. destruct (reachable_inv origin w Hr) as [[Ht _] _].
  by rewrite toggleMic_twice_inv.
Qed.

(** A call under way with the microphone already toggled once. *)
Definition mutedCall : World :=
  run "" [MediaResolved (Granted [AudioTrack; VideoTrack]); ClickMic] (mount (Some "600")).

Lemma toggleMic_twice_witness :
  micOn (mediaState (toggleMic (toggleMic mutedCall))) = micOn (mediaState mutedCall)
  ∧ selfStreamRef (toggleMic (toggleMic mutedCall)) = selfStreamRef mutedCall
  ∧ toggleMic (toggleMic mutedCall) = mutedCall.
Proof.
  apply (toggleMic_twice "" mutedCall).
  exists (Some "600"), [MediaResolved (Granted [AudioTrack; VideoTrack]); ClickMic].
  reflexivity.
Defined.

Example mutedCall_tracks :
  selfStreamRef mutedCall
  = Some [ {| kind := AudioTrack; enabled := false |}; {| kind := VideoTrack; enabled := true |} ]
  ∧ mediaState mutedCall = {| micOn := false; camOn := true |}.
Proof. split; vm_compute; reflexivity. Qed.

(** ** Ticks after the end *)

(** C4, as stated, fails: the interval callback has no call-state check.
    Run on a session ended by hang-up it increments the elapsed seconds. *)
Lemma tick_handler_has_no_state_check :
  inCall (run "" [MediaResolved (Granted [AudioTrack; VideoTrack]); ClickHangup]
            (mount (Some "600"))) = false
  ∧ duration (run "" [MediaResolved (Granted [AudioTrack; VideoTrack]); ClickHangup]
                (mount (Some "600"))) = 0
  ∧ duration (intervalCallback 600 RenderPhase
                (run "" [MediaResolved (Granted [AudioTrack; VideoTrack]); ClickHangup]
                   (mount (Some "600")))) = 1
  ∧ duration (intervalCallback 600 Eager
                (run "" [MediaResolved (Granted [AudioTrack; VideoTrack]); ClickHangup]
                   (mount (Some "600")))) = 1.
Proof. repeat split; vm_compute; reflexivity. Qed.

Lemma intervalFired_no_timers h path w : intervals w = ∅ → intervalFired h path w = w.
Proof. intros Hi. unfold intervalFired. by rewrite Hi, lookup_empty. Qed.

Lemma intervalCallback_after_endCall limit path w :
  inCall (intervalCallback limit path (endCall w)) = false
  ∧ selfStreamRef (intervalCallback limit path (endCall w)) = None
  ∧ effects (intervalCallback limit path (endCall w)) = effects (endCall w).
Proof.
  unfold intervalCallback, durationUpdater.
  destruct (limit <=? duration (endCall w) + 1); [destruct path|].
  - rewrite endCall_setDuration, endCall_idem.
    destruct (endCall_fields w) as (? & _ & ? & _). done.
  - rewrite endCall_idem. destruct (endCall_fields w) as (? & _ & ? & _). done.
  - destruct (endCall_fields w) as (? & _ & ? & _). done.
Qed.

(** C4, amended. In every world the page can be in, a tick that fires
    after [endCall] is dropped, because [endCall] removed the interval from
    the table of active timers: nothing changes.  The same holds in every
    reachable world that is not in call.  The callback itself, were it to
    run after [endCall], would neither set in-call, nor restore a stream,
    nor stop a track or clear a timer again. *)
Theorem tick_after_end_is_dropped origin w h limit path :
  reachable origin w →
  intervalFired h path (endCall w) = endCall w
  ∧ (inCall w = false → dispatch origin (IntervalFired h path) w = w)
  ∧ inCall (intervalCallback limit path (endCall w)) = false
  ∧ selfStreamRef (intervalCallback limit path (endCall w)) = None
  ∧ effects (intervalCallback limit path (endCall w)) = effects (endCall w).
Proof.
  intros Hr. destruct (reachable_inv origin w Hr) as [_ Ht].
  split; [|split; [|apply intervalCallback_after_endCall]].
  - apply intervalFired_no_timers. by apply endCall_no_timers.
  - intros Hc. unfold timerInv in Ht. rewrite Hc in Ht. destruct Ht as [_ Hi].
    unfold dispatch, handle. rewrite intervalFired_no_timers by done.
    by apply commit_same_deps.
Qed.

(** A call under way, about to be hung up. *)
Definition runningCall : World :=
  run "" [MediaResolved (Granted [AudioTrack; VideoTrack]); IntervalFired 1 Eager]
    (mount (Some "600")).

Lemma tick_after_end_is_dropped_witness :
  intervalFired 1 Eager (endCall runningCall) = endCall runningCall
  ∧ inCall (intervalCallback 600 Eager (endCall runningCall)) = false.
Proof.
  destruct (tick_after_end_is_dropped "" runningCall 1%positive 600 Eager)
    as (H1 & _ & H3 & _).
  - exists (Some "600"),
      [MediaResolved (Granted [AudioTrack; VideoTrack]); IntervalFired 1 Eager].
    reflexivity.
  - exact (conj H1 H3).
Defined.

(** ** Ticks up to the limit *)

Lemma tick_running origin h path limit w :
  intervals w !! h = Some limit →
  duration w + 1 < limit →
  dispatch origin (IntervalFired h path) w = setDuration (duration w + 1) w.
Proof.
  intros Hi Hlt. unfold dispatch, handle, intervalFired. rewrite Hi.
  unfold intervalCallback, durationUpdater.
  rewrite (proj2 (Z.leb_gt _ _)) by done.
  by apply commit_same_deps.
Qed.

(** After [endCall] the commit finds nothing to clean up and nothing to
    start. *)
Lemma commit_ended old w :
  inCall w = false → timerRef w = None → chatStep old = chatStep w →
  commit old w = w.
Proof.
  intros Hc Ht Hs. unfold commit, stepChanged.
  rewrite (bool_decide_eq_true_2 _ Hs). cbn [negb].
  unfold timerCleanup, timerEffect. rewrite Ht.
  destruct (timerDepsChanged old w), (inCall old); cbn [andb]; by rewrite ?Hc.
Qed.

Lemma tick_final origin h path limit w :
  timerRef w = Some h →
  intervals w !! h = Some limit →
  limit ≤ duration w + 1 →
  inCall (dispatch origin (IntervalFired h path) w) = false
  ∧ intervals (dispatch origin (IntervalFired h path) w) !! h = None
  ∧ duration (dispatch origin (IntervalFired h path) w)
    = match path with Eager => duration w + 1 | RenderPhase => 0 end
  ∧ effects (dispatch origin (IntervalFired h path) w)
    = effects w ++ (TrackStop <$> default [] (selfStreamRef w)) ++ [ClearInterval h].
Proof.
  intros Ht Hi Hle. unfold dispatch, handle, intervalFired. rewrite Hi.
  unfold intervalCallback, durationUpdater.
  rewrite (proj2 (Z.leb_le _ _)) by done.
  assert (He : inCall (endCall w) = false ∧ intervals (endCall w) !! h = None
               ∧ duration (endCall w) = 0 ∧ timerRef (endCall w) = None
               ∧ chatStep (endCall w) = chatStep w
               ∧ effects (endCall w)
                 = effects w ++ (TrackStop <$> default [] (selfStreamRef w))
                     ++ [ClearInterval h]).
  { clear Hi Hle.
    destruct w as [? ? ? ? ? ? ? ? ? ? ? ? ? ? stream timer ? ? ? ? ?].
    wsimpl in Ht. subst. unfold endCall, stopMediaTracks, clearInterval.
    destruct stream; wsimpl; split_and!; try done; try apply lookup_delete_eq.
    by rewrite <- app_assoc. }
  destruct He as (Hc & Hn & Hd & Hr & Hs & Hf).
  destruct path.
  - rewrite endCall_setDuration. by rewrite commit_ended.
  - by rewrite commit_ended.
Qed.

Lemma run_cons origin ev evs w :
  run origin (ev :: evs) w = run origin evs (dispatch origin ev w).
Proof. reflexivity. Qed.

Lemma ticks_dropped origin h paths w :
  intervals w !! h = None → run origin (IntervalFired h <$> paths) w = w.
Proof.
  intros Hi. induction paths as [|p paths IH]; [done|].
  rewrite fmap_cons, run_cons.
  assert (Hd : dispatch origin (IntervalFired h p) w = w).
  { unfold dispatch, handle, intervalFired. rewrite Hi. by apply commit_same_deps. }
  rewrite Hd. exact IH.
Qed.

Lemma ticks_from origin h limit paths w :
  timerRef w = Some h →
  intervals w !! h = Some limit →
  inCall w = true →
  0 ≤ duration w < limit →
  inCall (run origin (IntervalFired h <$> paths) w)
    = bool_decide (duration w + Z.of_nat (length paths) < limit)
  ∧ duration (run origin (IntervalFired h <$> paths) w)
    = (if bool_decide (duration w + Z.of_nat (length paths) < limit)
       then duration w + Z.of_nat (length paths)
       else match paths !! Z.to_nat (limit - 1 - duration w) with
            | Some Eager => limit
            | _ => 0
            end)
  ∧ effects (run origin (IntervalFired h <$> paths) w)
    = effects w
      ++ (if bool_decide (limit ≤ duration w + Z.of_nat (length paths))
          then (TrackStop <$> default [] (selfStreamRef w)) ++ [ClearInterval h]
          else []).
Proof.
  revert w. induction paths as [|p paths IH]; intros w Ht Hi Hc [Hd0 Hd].
  - cbn [fmap list_fmap run foldl length]. rewrite Z.add_0_r.
    rewrite bool_decide_eq_true_2, bool_decide_eq_false_2 by lia.
    by rewrite app_nil_r.
  - rewrite fmap_cons, run_cons.
    cbn [length]. rewrite Nat2Z.inj_succ.
    destruct (decide (duration w + 1 < limit)) as [Hlt|Hge].
    + rewrite (tick_running origin h p limit w Hi Hlt).
      destruct (IH (setDuration (duration w + 1) w) Ht Hi Hc) as (IH1 & IH2 & IH3).
      { change (0 ≤ duration w + 1 < limit). lia. }
      change (duration (setDuration (duration w + 1) w)) with (duration w + 1) in *.
      change (effects (setDuration (duration w + 1) w)) with (effects w) in *.
      change (selfStreamRef (setDuration (duration w + 1) w)) with (selfStreamRef w) in *.
      replace (duration w + Z.succ (Z.of_nat (length paths)))
        with (duration w + 1 + Z.of_nat (length paths)) by lia.
      rewrite IH1, IH2, IH3. split_and!; [done| |done].
      replace (Z.to_nat (limit - 1 - duration w))
        with (S (Z.to_nat (limit - 1 - (duration w + 1)))) by lia.
      done.
    + destruct (tick_final origin h p limit w Ht Hi) as (F1 & F2 & F3 & F4); [lia|].
      rewrite (ticks_dropped origin h paths _ F2).
      rewrite F1, F3, F4.
      rewrite bool_decide_eq_false_2, bool_decide_eq_true_2 by lia.
      replace (Z.to_nat (limit - 1 - duration w)) with 0%nat by lia.
      split_and!; [done| |done].
      cbn [lookup list_lookup]. destruct p; [done|lia].
Qed.

(** C3. Take any world the page can be in where a call has just started
    (in call, elapsed seconds 0) and whose resolved limit is [limit] > 0,
    and let the interval of that call fire any number of times.  The
    session is in call after [n] ticks exactly when [n < limit], so it ends
    on tick number [limit] and never comes back; before that the elapsed
    seconds equal the number of ticks.  All the ticks together perform one
    release of the tracks and one [clearInterval], however many follow the
    end.  On the last tick the updater still returns [prev + 1 = limit]
    while invoking [endCall]; whether the slot then keeps [limit] or the 0
    written by [endCall] depends on the path React ran the updater on. *)
Theorem limit_ends_call_after_limit_ticks origin w limit paths :
  reachable origin w →
  inCall w = true →
  duration w = 0 →
  effectiveLimitSeconds (durationLimitSeconds w) = limit →
  0 < limit →
  ∃ h,
    timerRef w = Some h
    ∧ inCall (run origin (IntervalFired h <$> paths) w)
      = bool_decide (Z.of_nat (length paths) < limit)
    ∧ duration (run origin (IntervalFired h <$> paths) w)
      = (if bool_decide (Z.of_nat (length paths) < limit)
         then Z.of_nat (length paths)
         else match paths !! Z.to_nat (limit - 1) with
              | Some Eager => limit
              | _ => 0
              end)
    ∧ effects (run origin (IntervalFired h <$> paths) w)
      = effects w
        ++ (if bool_decide (limit ≤ Z.of_nat (length paths))
            then (TrackStop <$> default [] (selfStreamRef w)) ++ [ClearInterval h]
            else [])
    ∧ durationUpdater limit (limit - 1) = (limit, true).
Proof.
  intros Hr Hc Hd Hl Hpos.
  destruct (reachable_inv origin w Hr) as [_ Ht].
  unfold timerInv in Ht. rewrite Hc, Hl in Ht. destruct Ht as (h & Hh & Hi).
  exists h. split; [exact Hh|].
  assert (Hlook : intervals w !! h = Some limit).
  { rewrite Hi. apply lookup_singleton_eq. }
  destruct (ticks_from origin h limit paths w Hh Hlook Hc) as (H1 & H2 & H3); [lia|].
  rewrite Hd in H1, H2, H3. rewrite Z.add_0_l in H1, H2, H3.
  rewrite Z.sub_0_r in H2.
  split_and!; [exact H1|exact H2|exact H3|].
  unfold durationUpdater. replace (limit - 1 + 1) with limit by lia.
  by rewrite Z.leb_refl.
Qed.

(** A call just started from [?seconds=3]. *)
Definition startedCall : World :=
  run "" [MediaResolved (Granted [AudioTrack; VideoTrack])] (mount (Some "3")).

Lemma limit_ends_call_after_limit_ticks_witness :
  ∃ h,
    timerRef startedCall = Some h
    ∧ inCall (run "" (IntervalFired h <$> [Eager; RenderPhase]) startedCall) = true
    ∧ inCall (run "" (IntervalFired h <$> [Eager; RenderPhase; Eager]) startedCall) = false
    ∧ inCall (run "" (IntervalFired h <$> [Eager; RenderPhase; Eager; Eager]) startedCall)
      = false.
Proof.
  assert (Hr : reachable "" startedCall).
  { exists (Some "3"), [MediaResolved (Granted [AudioTrack; VideoTrack])]. reflexivity. }
  destruct (limit_ends_call_after_limit_ticks "" startedCall 3 [Eager; RenderPhase] Hr)
    as (h & Hh & H2 & _); [vm_compute; reflexivity..|lia|].
  destruct (limit_ends_call_after_limit_ticks "" startedCall 3
              [Eager; RenderPhase; Eager] Hr)
    as (h3 & Hh3 & H3 & _); [vm_compute; reflexivity..|lia|].
  destruct (limit_ends_call_after_limit_ticks "" startedCall 3
              [Eager; RenderPhase; Eager; Eager] Hr)
    as (h4 & Hh4 & H4 & _); [vm_compute; reflexivity..|lia|].
  assert (h3 = h) as -> by congruence. assert (h4 = h) as -> by congruence.
  exists h. split; [exact Hh|]. split; [exact H2|]. split; [exact H3|exact H4].
Defined.

Example startedCall_three_ticks :
  effects (run "" (IntervalFired 1 <$> [Eager; Eager; Eager; Eager]) startedCall)
  = [FetchConfig; GetUserMedia; SetInterval 1 3;
     TrackStop {| kind := AudioTrack; enabled := true |};
     TrackStop {| kind := VideoTrack; enabled := true |};
     ClearInterval 1]
  ∧ duration (run "" (IntervalFired 1 <$> [Eager; Eager; Eager; Eager]) startedCall) = 3
  ∧ duration (run "" (IntervalFired 1 <$> [Eager; Eager; RenderPhase; Eager]) startedCall) = 0.
Proof. repeat split; vm_compute; reflexivity. Qed.


(** * Further properties *)

(** ** Printing and parsing decimal numbers *)

(** [Number.prototype.toString] on an integer, and the conversion of a
    template literal, are stdpp's [pretty] on [Z]. *)

(** [String.prototype.padStart]. *)
Fixpoint padFill (n : nat) (pad cur : string) : string :=
  match n with
  | O => ""
  | S n' =>
      match cur with
      | String c cur' => String c (padFill n' pad cur')
      | EmptyString =>
          match pad with
          | String c pad' => String c (padFill n' pad pad')
          | EmptyString => ""
          end
      end
  end.

Definition padStart (target : nat) (pad : string) (s : string) : string :=
  padFill (target - String.length s) pad pad +:+ s.

Definition formatDuration (seconds : Z) : string :=
  let mins := padStart 2 "0" (pretty (seconds `div` 60)) in
  let secs := padStart 2 "0" (pretty (seconds `rem` 60)) in
  mins +:+ ":" +:+ secs.

Example formatDuration_examples :
  formatDuration 0 = "00:00" ∧ formatDuration 75 = "01:15"
  ∧ formatDuration 1800 = "30:00" ∧ formatDuration 6000 = "100:00".
Proof. repeat split; vm_compute; reflexivity. Qed.

(** Whether [t] begins with a decimal digit. *)
Definition startsWithDigit (t : string) : bool :=
  match t with
  | String c _ => bool_decide (is_Some (digitValue c))
  | EmptyString => false
  end.

Lemma digitValue_pretty_N_char d :
  (d < 10)%N → digitValue (pretty_N_char d) = Some (Z.of_N d).
Proof.
  intros Hd.
  assert (d = 0 ∨ d = 1 ∨ d = 2 ∨ d = 3 ∨ d = 4 ∨ d = 5 ∨ d = 6 ∨ d = 7 ∨ d = 8 ∨ d = 9)%N
    as Hcases by lia.
  repeat (destruct Hcases as [->|Hcases]; [reflexivity|]). by subst.
Qed.

Lemma app_String c s t : String c s +:+ t = String c (s +:+ t).
Proof. reflexivity. Qed.

Lemma app_empty_l (t : string) : "" +:+ t = t.
Proof. reflexivity. Qed.

Lemma string_app_assoc (s t u : string) : (s +:+ t) +:+ u = s +:+ (t +:+ u).
Proof. induction s as [|c s IH]; [done|]. by rewrite !app_String, IH. Qed.

Lemma pretty_N_go_app x s : pretty_N_go x s = pretty_N_go x "" +:+ s.
Proof.
  revert s. induction (N.lt_wf_0 x) as [x _ IH]; intros s.
  destruct (decide (x = 0)%N) as [->|Hx]; [by rewrite !pretty_N_go_0|].
  assert (Hlt : (x `div` 10 < x)%N) by (apply N.div_lt; lia).
  rewrite !(pretty_N_go_step x) by lia.
  rewrite (IH _ Hlt (String _ s)), (IH _ Hlt (String _ "")).
  by rewrite string_app_assoc.
Qed.

(** A printed positive number begins with a digit. *)
Lemma pretty_N_go_head x s :
  (0 < x)%N → ∃ c t, pretty_N_go x s = String c t ∧ is_Some (digitValue c).
Proof.
  revert s. induction (N.lt_wf_0 x) as [x _ IH]; intros s Hx.
  rewrite pretty_N_go_step by done.
  destruct (decide (x `div` 10 = 0)%N) as [->|Hdiv].
  - rewrite pretty_N_go_0. eexists _, _. split; [done|].
    rewrite digitValue_pretty_N_char by (apply N.mod_lt; lia). done.
  - apply IH; [apply N.div_lt; lia|]. by apply N.neq_0_lt_0.
Qed.


Lemma readDigits_pretty_N_go x s acc :
  (0 < x)%N → default 0 acc = 0 →
  readDigits (pretty_N_go x s) acc = readDigits s (Some (Z.of_N x)).
Proof.
  revert s. induction (N.lt_wf_0 x) as [x _ IH]; intros s Hx Hacc.
  rewrite pretty_N_go_step by done.
  assert (Hstep : ∀ a, readDigits (String (pretty_N_char (x `mod` 10)) s) a
            = readDigits s (Some (10 * default 0 a + Z.of_N (x `mod` 10)))).
  { intros a. cbn [readDigits].
    by rewrite digitValue_pretty_N_char by (apply N.mod_lt; lia). }
  destruct (decide (x `div` 10 = 0)%N) as [Hdiv|Hdiv].
  - rewrite Hdiv, pretty_N_go_0, Hstep, Hacc. do 2 f_equal.
    apply N.div_small_iff in Hdiv; [|done]. rewrite N.mod_small by done. lia.
  - rewrite IH; [|apply N.div_lt; lia|by apply N.neq_0_lt_0|done].
    rewrite Hstep. do 2 f_equal.
    cbn [default from_option]. rewrite (N.div_mod x 10) at 3 by done.
    rewrite N2Z.inj_add, N2Z.inj_mul. reflexivity.
Qed.

Lemma readDigits_stop t acc :
  startsWithDigit t = false → readDigits t acc = acc.
Proof.
  destruct t as [|c t]; [done|]. cbn [startsWithDigit readDigits].
  intros Hd%bool_decide_eq_false. destruct (digitValue c); [|done].
  by destruct Hd.
Qed.

(** A string that begins with a digit is read without skipping or sign. *)
Lemma parseInt_digit_head c t :
  is_Some (digitValue c) → parseInt (String c t) = readDigits (String c t) None.
Proof.
  intros [d Hd]. unfold parseInt.
  rewrite skipWhiteSpace_head.
  - destruct c as [[] [] [] [] [] [] [] []]; try discriminate Hd; reflexivity.
  - apply digitValue_byte in Hd. unfold isWhiteSpace1.
    apply orb_false_iff. split; [apply andb_false_iff; right|]; lia.
  - apply digitValue_byte in Hd. lia.
Qed.

Lemma pretty_Z_nonneg_cases n :
  0 ≤ n → (n = 0 ∧ pretty n = "0") ∨ (0 < n ∧ pretty n = pretty_N_go (Z.to_N n) "").
Proof.
  intros Hn. destruct n as [|p|p]; [by left|right|lia].
  split; [lia|]. reflexivity.
Qed.

(** Reading back a printed number, whatever follows it, as long as that
    does not begin with a digit. *)
Lemma readDigits_pretty n t acc :
  0 ≤ n → default 0 acc = 0 → startsWithDigit t = false →
  readDigits (pretty n +:+ t) acc = Some n.
Proof.
  intros Hn Hacc Ht. destruct (pretty_Z_nonneg_cases n Hn) as [[-> ->]|[Hpos ->]].
  - rewrite app_String, app_empty_l. cbn [readDigits digitValue].
    change (digitValue "0") with (Some 0). cbn match. rewrite Hacc.
    by rewrite readDigits_stop.
  - rewrite <- pretty_N_go_app, readDigits_pretty_N_go by (done || lia).
    rewrite readDigits_stop by done. f_equal. lia.
Qed.

Lemma pretty_head n :
  0 ≤ n → ∃ c t, pretty n = String c t ∧ is_Some (digitValue c).
Proof.
  intros Hn. destruct (pretty_Z_nonneg_cases n Hn) as [[-> ->]|[Hpos ->]].
  - by eexists _, _.
  - apply pretty_N_go_head. lia.
Qed.

Lemma parseInt_pretty n t :
  0 ≤ n → startsWithDigit t = false → parseInt (pretty n +:+ t) = Some n.
Proof.
  intros Hn Ht. destruct (pretty_head n Hn) as (c & u & Hp & Hc).
  rewrite <- (readDigits_pretty n t None Hn eq_refl Ht).
  rewrite Hp, app_String. by apply parseInt_digit_head.
Qed.

Lemma string_app_empty_r (s : string) : s +:+ "" = s.
Proof. induction s as [|c s IH]; [done|]. by rewrite app_String, IH. Qed.

Lemma linkSeconds_printed n t :
  0 < n → startsWithDigit t = false →
  truthy (Some (pretty n +:+ t)) = true ∧ linkSeconds (Some (pretty n +:+ t)) = Some n.
Proof.
  intros Hn Ht. split.
  - destruct (pretty_head n) as (c & u & -> & _); [lia|]. done.
  - unfold linkSeconds. rewrite parseInt_pretty by (lia || done).
    by rewrite (proj2 (Z.ltb_lt 0 n)).
Qed.

Lemma mount_printed n t :
  0 < n → startsWithDigit t = false →
  durationLimitSeconds (mount (Some (pretty n +:+ t))) = Some n
  ∧ hasDurationParam (mount (Some (pretty n +:+ t))) = true
  ∧ pendingMedia (mount (Some (pretty n +:+ t))) = 1%nat.
Proof.
  intros Hn Ht. destruct (linkSeconds_printed n t Hn Ht) as [Htruthy Hlink].
  rewrite mount_durationLimitSeconds, mount_hasDurationParam, mount_pendingMedia.
  rewrite Hlink, Htruthy. done.
Qed.

(** X1. The seconds value that Generate writes into the hand-off link,
    read by the mount effect of the page it opens, selects direct mode with
    the package's duration as the limit and requests the capture. *)
Theorem handoff_link_round_trip origin pkg w :
  0 < minutes pkg →
  ∃ value,
    effects (generateClick origin pkg w)
      = effects w ++ [WindowOpen (origin +:+ "/?seconds=" +:+ value) "_blank"; roomOpenedToast]
    ∧ durationLimitSeconds (mount (Some value)) = Some (minutes pkg * 60)
    ∧ hasDurationParam (mount (Some value)) = true
    ∧ pendingMedia (mount (Some value)) = 1%nat.
Proof.
  intros Hm. exists (pretty (minutes pkg * 60)). split.
  - destruct_world w. unfold generateClick. wsimpl. by rewrite <- app_assoc.
  - rewrite <- (string_app_empty_r (pretty (minutes pkg * 60))).
    apply mount_printed; [lia|done].
Qed.

Lemma handoff_link_round_trip_witness :
  ∃ value,
    effects (generateClick "https://call.example"
               {| id := "p20"; label := "20 minutos"; minutes := 20; price := 7990 |}
               summaryScenario)
      = effects summaryScenario
        ++ [WindowOpen ("https://call.example" +:+ "/?seconds=" +:+ value) "_blank";
            roomOpenedToast]
    ∧ durationLimitSeconds (mount (Some value)) = Some (20 * 60)
    ∧ hasDurationParam (mount (Some value)) = true
    ∧ pendingMedia (mount (Some value)) = 1%nat.
Proof.
  apply (handoff_link_round_trip "https://call.example"
    {| id := "p20"; label := "20 minutos"; minutes := 20; price := 7990 |} summaryScenario).
  reflexivity.
Defined.



Example seconds_600abc : pretty 600 +:+ "abc" = "600abc".
Proof. vm_compute. reflexivity. Qed.

(** ** [formatDuration] *)

Lemma pretty_N_go_digit x s :
  (0 < x < 10)%N → pretty_N_go x s = String (pretty_N_char x) s.
Proof.
  intros [Hpos Hlt]. rewrite pretty_N_go_step by done.
  rewrite N.div_small, N.mod_small by done. apply pretty_N_go_0.
Qed.

Lemma pretty_N_go_length x s :
  (String.length s ≤ String.length (pretty_N_go x s))%nat.
Proof.
  revert s. induction (N.lt_wf_0 x) as [x _ IH]; intros s.
  destruct (decide (x = 0)%N) as [->|Hx]; [by rewrite pretty_N_go_0|].
  rewrite pretty_N_go_step by lia.
  etrans; [|apply IH, N.div_lt; lia]. cbn [String.length]. lia.
Qed.

Lemma padStart_pretty n :
  0 ≤ n →
  padStart 2 "0" (pretty n) = if n <? 10 then "0" +:+ pretty n else pretty n.
Proof.
  intros Hn. destruct (Z.ltb_spec n 10) as [Hlt|Hge].
  - destruct (pretty_Z_nonneg_cases n Hn) as [[-> ->]|[Hpos ->]]; [done|].
    rewrite pretty_N_go_digit by lia. reflexivity.
  - destruct (pretty_Z_nonneg_cases n Hn) as [[-> ->]|[Hpos ->]]; [lia|].
    assert (Hx : (0 < Z.to_N n)%N) by lia.
    assert (Hd : (0 < Z.to_N n `div` 10)%N).
    { apply N.div_str_pos. lia. }
    unfold padStart. rewrite pretty_N_go_step by done.
    rewrite (pretty_N_go_step _ (String _ _)) by done.
    pose proof (pretty_N_go_length ((Z.to_N n `div` 10) `div` 10)
      (String (pretty_N_char ((Z.to_N n `div` 10) `mod` 10))
         (String (pretty_N_char (Z.to_N n `mod` 10)) ""))) as Hlen.
    cbn [String.length] in Hlen.
    replace (2 - _)%nat with 0%nat by lia. reflexivity.
Qed.

Lemma parseInt_padStart n t :
  0 ≤ n → startsWithDigit t = false →
  parseInt (padStart 2 "0" (pretty n) +:+ t) = Some n.
Proof.
  intros Hn Ht. rewrite padStart_pretty by done.
  destruct (n <? 10); [|by apply parseInt_pretty].
  rewrite string_app_assoc, app_String, app_empty_l.
  rewrite parseInt_digit_head by done.
  cbn [readDigits]. change (digitValue "0") with (Some 0). cbn match.
  by apply readDigits_pretty.
Qed.

Lemma string_length_app (s t : string) :
  String.length (s +:+ t) = (String.length s + String.length t)%nat.
Proof. induction s as [|c s IH]; [done|]. rewrite app_String. cbn. by rewrite IH. Qed.

Lemma padStart_length n :
  0 ≤ n < 100 → String.length (padStart 2 "0" (pretty n)) = 2%nat.
Proof.
  intros [Hn Hlt]. rewrite padStart_pretty by done.
  destruct (pretty_Z_nonneg_cases n Hn) as [[-> ->]|[Hpos ->]]; [done|].
  destruct (Z.ltb_spec n 10) as [Hs|Hge].
  - rewrite pretty_N_go_digit by lia. reflexivity.
  - rewrite pretty_N_go_step by lia.
    rewrite pretty_N_go_digit; [reflexivity|].
    split; [apply N.div_str_pos; lia|apply N.Div0.div_lt_upper_bound; lia].
Qed.

(** X4. Two different non-negative elapsed times are displayed
    differently. *)
Theorem formatDuration_injective a b :
  0 ≤ a → 0 ≤ b → formatDuration a = formatDuration b → a = b.
Proof.
  intros Ha Hb Heq. unfold formatDuration in Heq. cbv zeta in Heq.
  assert (Hm : a `div` 60 = b `div` 60).
  { apply (f_equal parseInt) in Heq.
    rewrite !parseInt_padStart in Heq by (done || apply Z.div_pos; lia).
    by injection Heq. }
  rewrite Hm in Heq. apply (inj (String.app _)) in Heq.
  apply (inj (String.app ":")) in Heq.
  assert (Hr : a `rem` 60 = b `rem` 60).
  { apply (f_equal (λ s, parseInt (s +:+ ""))) in Heq. cbv beta in Heq.
    rewrite !parseInt_padStart in Heq by (done || apply Z.rem_nonneg; lia).
    by injection Heq. }
  rewrite (Z.quot_rem' a 60), (Z.quot_rem' b 60).
  rewrite !Z.quot_div_nonneg by lia. by rewrite Hm, Hr.
Qed.

Lemma formatDuration_injective_witness : 75 = 60 + 15.
Proof.
  apply (formatDuration_injective 75 (60 + 15)); [lia|lia|vm_compute; reflexivity].
Defined.

Lemma string_of_length_two s :
  String.length s = 2%nat → ∃ a b, s = String a (String b "").
Proof. destruct s as [|a [|b [|c s]]]; try discriminate. by exists a, b. Qed.

(** X5. For a non-negative elapsed time the display starts with the whole
    minutes, which [parseInt] reads back; below 100 minutes it has the
    shape [mm:ss]: two characters, a colon, two characters. *)
Theorem formatDuration_minutes seconds :
  0 ≤ seconds →
  parseInt (formatDuration seconds) = Some (seconds `div` 60)
  ∧ (seconds < 6000 →
     ∃ m1 m2 s1 s2,
       formatDuration seconds = String m1 (String m2 (String ":" (String s1 (String s2 ""))))).
Proof.
  intros Hs. unfold formatDuration. cbv zeta. split.
  - apply parseInt_padStart; [apply Z.div_pos; lia|done].
  - intros Hlt.
    destruct (string_of_length_two (padStart 2 "0" (pretty (seconds `div` 60))))
      as (m1 & m2 & ->).
    { apply padStart_length. split; [apply Z.div_pos; lia|].
      apply Z.div_lt_upper_bound; lia. }
    destruct (string_of_length_two (padStart 2 "0" (pretty (seconds `rem` 60))))
      as (s1 & s2 & ->).
    { apply padStart_length. pose proof (Z.rem_bound_pos seconds 60). lia. }
    by exists m1, m2, s1, s2.
Qed.

Lemma formatDuration_minutes_witness :
  parseInt (formatDuration 1799) = Some (1799 `div` 60)
  ∧ (1799 < 6000 →
     ∃ m1 m2 s1 s2,
       formatDuration 1799 = String m1 (String m2 (String ":" (String s1 (String s2 ""))))).
Proof. apply (formatDuration_minutes 1799). lia. Defined.

(** ** Induction over the reachable worlds *)

Lemma run_snoc origin evs ev w :
  run origin (evs ++ [ev]) w = dispatch origin ev (run origin evs w).
Proof. unfold run. by rewrite foldl_app. Qed.

Lemma reachable_induction origin (P : World → Prop) :
  (∀ secondsFromUrl, P (mount secondsFromUrl)) →
  (∀ ev w, reachable origin w → P w → P (dispatch origin ev w)) →
  ∀ w, reachable origin w → P w.
Proof.
  intros Hmount Hstep w (secondsFromUrl & evs & ->).
  induction evs as [|ev evs IH] using rev_ind; [apply Hmount|].
  rewrite run_snoc. apply Hstep; [by exists secondsFromUrl, evs|exact IH].
Qed.

(** The part of the world the call session lives in. *)
Definition sessionView (w : World) :=
  (inCall w, connecting w, duration w, mediaState w, selfStreamRef w,
   pendingMedia w, timerRef w, intervals w).

(** What a handler can do to the call session: nothing, resume a pending
    [startCall], run the callback of an active interval, or one of the
    three call controls while the call room is rendered. *)
Lemma handle_session_cases origin ev w :
  sessionView (handle origin ev w) = sessionView w
  ∨ (∃ r, (0 < pendingMedia w)%nat ∧ handle origin ev w = startCallResume r w)
  ∨ (∃ h limit path,
       intervals w !! h = Some limit ∧ handle origin ev w = intervalCallback limit path w)
  ∨ (roomVisible w = true
     ∧ (handle origin ev w = toggleMic w ∨ handle origin ev w = toggleCam w
        ∨ handle origin ev w = endCall w)).
Proof.
  unfold handle.
  destruct ev as [data|r|h path| |i|c|v| | | | | | | ].
  - left. unfold configLoaded. by destruct data.
  - case_bool_decide; [|by left]. right; left. by exists r.
  - unfold intervalFired. destruct (intervals w !! h) as [limit|] eqn:Hi; [|by left].
    right; right; left. by exists h, limit, path.
  - left. unfold timeoutFired. by repeat case_match.
  - left. unfold packageClick. by repeat case_match.
  - left. by repeat case_match.
  - left. by repeat case_match.
  - left. unfold backClick. by repeat case_match.
  - left. unfold continueClick. by repeat case_match.
  - left. unfold generateClick. by repeat case_match.
  - left. unfold createAnotherClick. by repeat case_match.
  - destruct (roomVisible w) eqn:Hv; [|by left]. right; right; right. auto.
  - destruct (roomVisible w) eqn:Hv; [|by left]. right; right; right. auto.
  - destruct (roomVisible w) eqn:Hv; [|by left]. right; right; right. auto.
Qed.

Lemma handle_hasDurationParam origin ev w :
  hasDurationParam (handle origin ev w) = hasDurationParam w.
Proof.
  unfold handle.
  destruct ev as [data|r|h path| |i|c|v| | | | | | | ];
    unfold_handlers; field_cases.
Qed.

Lemma dispatch_hasDurationParam origin ev w :
  hasDurationParam (dispatch origin ev w) = hasDurationParam w.
Proof. unfold dispatch. by rewrite commit_hasDurationParam, handle_hasDurationParam. Qed.

Lemma run_hasDurationParam origin evs w :
  hasDurationParam (run origin evs w) = hasDurationParam w.
Proof.
  revert w. induction evs as [|ev evs IH]; intros w; [done|].
  rewrite run_cons, IH. apply dispatch_hasDurationParam.
Qed.

(** X3. The mode is fixed at mount: the flag is true in every later world
    exactly when the [seconds] value parsed as a positive integer, so a
    direct-mode page never renders the chat and a guided-mode page never
    renders the call room. *)
Theorem mode_fixed_at_mount origin secondsFromUrl evs :
  hasDurationParam (run origin evs (mount secondsFromUrl))
    = bool_decide (is_Some (linkSeconds secondsFromUrl))
  ∧ (is_Some (linkSeconds secondsFromUrl) →
     chatVisible (run origin evs (mount secondsFromUrl)) = false)
  ∧ (linkSeconds secondsFromUrl = None →
     roomVisible (run origin evs (mount secondsFromUrl)) = false).
Proof.
  assert (Hflag : hasDurationParam (run origin evs (mount secondsFromUrl))
                  = bool_decide (is_Some (linkSeconds secondsFromUrl))).
  { by rewrite run_hasDurationParam, mount_hasDurationParam. }
  split; [exact Hflag|]. unfold chatVisible, roomVisible. rewrite Hflag. split.
  - intros Hs. by rewrite bool_decide_eq_true_2.
  - intros ->. by rewrite bool_decide_eq_false_2 by (by intros [? ?]).
Qed.

Lemma mode_fixed_at_mount_witness :
  chatVisible
    (run "" [MediaResolved (Granted [AudioTrack; VideoTrack]); ClickHangup]
       (mount (Some "600"))) = false.
Proof.
  destruct (mode_fixed_at_mount ""
    (Some "600") [MediaResolved (Granted [AudioTrack; VideoTrack]); ClickHangup])
    as (_ & Hdirect & _).
  apply Hdirect. exists 600. vm_compute. reflexivity.
Defined.

(** ** A session that cannot start *)

Lemma idle_dispatch origin ev w :
  pendingMedia w = 0%nat → inCall w = false →
  pendingMedia (dispatch origin ev w) = 0%nat ∧ inCall (dispatch origin ev w) = false.
Proof.
  intros Hp Hc. unfold dispatch. rewrite commit_pendingMedia, commit_inCall.
  destruct (handle_session_cases origin ev w)
    as [Hv|[(r & Hpos & _)|[(h & limit & path & _ & ->)|(Hroom & _)]]].
  - unfold sessionView in Hv. injection Hv as Hc' _ _ _ _ Hp' _ _. by rewrite Hc', Hp'.
  - lia.
  - unfold intervalCallback, durationUpdater.
    destruct (limit <=? duration w + 1); [destruct path|]; split;
      try (by destruct (endCall_fields w) as (? & _));
      try (by destruct (endCall_fields (setDuration (duration w + 1) w)) as (? & _));
      try done.
    + rewrite endCall_setDuration.
      destruct w as [? ? ? ? ? ? ? ? ? ? ? ? ? ? stream timer ? ? ? ? ?].
      unfold endCall, stopMediaTracks, clearInterval.
      by destruct stream, timer.
    + destruct w as [? ? ? ? ? ? ? ? ? ? ? ? ? ? stream timer ? ? ? ? ?].
      unfold endCall, stopMediaTracks, clearInterval.
      by destruct stream, timer.
  - apply roomVisible_inCall in Hroom. congruence.
Qed.

Lemma idle_run origin evs w :
  pendingMedia w = 0%nat → inCall w = false →
  pendingMedia (run origin evs w) = 0%nat ∧ inCall (run origin evs w) = false.
Proof.
  revert w. induction evs as [|ev evs IH]; intros w Hp Hc; [done|].
  rewrite run_cons. destruct (idle_dispatch origin ev w Hp Hc). by apply IH.
Qed.

(** ** Outward effects *)

Lemma endCall_effects w :
  effects (endCall w)
  = effects w ++ (TrackStop <$> default [] (selfStreamRef w))
      ++ (ClearInterval <$> option_list (timerRef w)).
Proof.
  destruct w as [? ? ? ? ? ? ? ? ? ? ? ? ? ? stream timer ? ? ? ? ?].
  unfold endCall, stopMediaTracks, clearInterval.
  destruct stream, timer; wsimpl; cbn [default from_option option_list fmap list_fmap];
    by rewrite ?app_nil_r, <- ?app_assoc.
Qed.

(** The effects a step may add: never a capture request or a config
    fetch, and a [window.open] only for the hand-off link of the selected
    package, in a new context. *)
Definition stepEffect (origin : string) (pkg : option PackageOption) (e : Effect) : Prop :=
  match e with
  | GetUserMedia | FetchConfig => False
  | WindowOpen url target =>
      target = "_blank"
      ∧ ∃ p, pkg = Some p ∧ url = origin +:+ "/?seconds=" +:+ pretty (minutes p * 60)
  | _ => True
  end.

Lemma Forall_stepEffect_endCall origin pkg w :
  Forall (stepEffect origin pkg)
    ((TrackStop <$> default [] (selfStreamRef w))
       ++ (ClearInterval <$> option_list (timerRef w))).
Proof.
  apply Forall_app. split; apply Forall_fmap, Forall_true; done.
Qed.

Ltac no_effect := exists []; split; [by rewrite app_nil_r|constructor].

Lemma handle_effects origin ev w :
  ∃ es, effects (handle origin ev w) = effects w ++ es
        ∧ Forall (stepEffect origin (selectedPackage w)) es.
Proof.
  unfold handle.
  destruct ev as [data|r|h path| |i|c|v| | | | | | | ].
  - unfold configLoaded. destruct data; no_effect.
  - case_bool_decide; [|no_effect]. destruct r.
    + no_effect.
    + exists [ConsoleError; permissionToast]. split; [|by repeat constructor].
      destruct_world w. unfold startCallResume, requestMediaResume. wsimpl.
      by rewrite <- app_assoc.
  - unfold intervalFired. destruct (intervals w !! h) as [limit|]; [|no_effect].
    unfold intervalCallback, durationUpdater.
    destruct (limit <=? duration w + 1); [|no_effect].
    eexists. split; [|apply (Forall_stepEffect_endCall origin _ w)].
    destruct path.
    + rewrite endCall_setDuration. apply endCall_effects.
    + apply (endCall_effects w).
  - unfold timeoutFired. repeat case_match; no_effect.
  - unfold packageClick. repeat case_match; no_effect.
  - case_match; no_effect.
  - case_match; no_effect.
  - unfold backClick. repeat case_match; no_effect.
  - unfold continueClick. repeat case_match; no_effect.
  - destruct (selectedPackage w) as [pkg|] eqn:Hp; [|no_effect].
    case_match; [|no_effect].
    exists [WindowOpen (origin +:+ "/?seconds=" +:+ pretty (minutes pkg * 60)) "_blank";
            roomOpenedToast].
    split.
    + clear. destruct_world w. unfold generateClick. wsimpl. by rewrite <- app_assoc.
    + repeat constructor. by exists pkg.
  - unfold createAnotherClick. case_match; no_effect.
  - case_match; [|no_effect]. unfold toggleMic. case_match; no_effect.
  - case_match; [|no_effect]. unfold toggleCam. case_match; no_effect.
  - case_match; [|no_effect].
    eexists. split; [apply endCall_effects|apply Forall_stepEffect_endCall].
Qed.

Lemma commit_effects origin pkg old w :
  ∃ es, effects (commit old w) = effects w ++ es ∧ Forall (stepEffect origin pkg) es.
Proof.
  unfold commit.
  destruct (timerDepsChanged old w), (stepChanged old w), (inCall old);
    cbn [andb];
    unfold timerEffect, timerCleanup, typingEffect, typingCleanup, clearInterval;
    destruct w as [c ? ? ? ? ? ? ? ? step ? ? ? ? ? timer ? ? ? ? ?];
    destruct c, step, timer; wsimpl;
    first [ no_effect
          | eexists; split; [rewrite <- ?app_assoc; reflexivity|by repeat constructor] ].
Qed.

Lemma dispatch_effects origin ev w :
  ∃ es, effects (dispatch origin ev w) = effects w ++ es
        ∧ Forall (stepEffect origin (selectedPackage w)) es.
Proof.
  unfold dispatch.
  destruct (handle_effects origin ev w) as (es1 & H1 & F1).
  destruct (commit_effects origin (selectedPackage w) w (handle origin ev w))
    as (es2 & H2 & F2).
  exists (es1 ++ es2). split; [by rewrite H2, H1, app_assoc|by apply Forall_app].
Qed.

Definition isGetUserMedia (e : Effect) : bool :=
  match e with GetUserMedia => true | _ => false end.

Definition isFetchConfig (e : Effect) : bool :=
  match e with FetchConfig => true | _ => false end.

(** How many times the page has asked for the camera and microphone, and
    for the remote configuration. *)
Definition captureRequests (w : World) : nat :=
  length (filter (λ e, isGetUserMedia e) (effects w)).

Definition configFetches (w : World) : nat :=
  length (filter (λ e, isFetchConfig e) (effects w)).

Lemma stepEffect_no_requests origin pkg es :
  Forall (stepEffect origin pkg) es →
  filter (λ e, isGetUserMedia e) es = [] ∧ filter (λ e, isFetchConfig e) es = [].
Proof.
  induction 1 as [|e es He _ [IH1 IH2]]; [done|].
  rewrite !filter_cons, IH1, IH2. by destruct e.
Qed.

Lemma dispatch_requests origin ev w :
  captureRequests (dispatch origin ev w) = captureRequests w
  ∧ configFetches (dispatch origin ev w) = configFetches w.
Proof.
  unfold captureRequests, configFetches.
  destruct (dispatch_effects origin ev w) as (es & -> & Hes).
  destruct (stepEffect_no_requests _ _ _ Hes) as [H1 H2].
  by rewrite !filter_app, H1, H2, !app_nil_r.
Qed.

Lemma run_requests origin evs w :
  captureRequests (run origin evs w) = captureRequests w
  ∧ configFetches (run origin evs w) = configFetches w.
Proof.
  revert w. induction evs as [|ev evs IH]; intros w; [done|].
  rewrite run_cons. destruct (IH (dispatch origin ev w)) as [-> ->].
  apply dispatch_requests.
Qed.

Lemma commit_idle_effects old w :
  inCall old = false → inCall w = false → effects (commit old w) = effects w.
Proof.
  intros Ho Hw. unfold commit. rewrite Ho, andb_false_r. clear Ho.
  destruct (timerDepsChanged old w), (stepChanged old w);
    unfold timerEffect, typingEffect, typingCleanup;
    destruct w as [? ? ? ? ? ? ? ? ? step ? ? ? ? ? ? ? ? ? ? ?];
    wsimpl in Hw; subst; destruct step; wsimpl; done.
Qed.

Lemma mount_effects secondsFromUrl :
  effects (mount secondsFromUrl)
  = FetchConfig :: (if truthy secondsFromUrl then [GetUserMedia] else []).
Proof.
  unfold mount. set (w := typingEffect _).
  assert (Hw : inCall w = false
               ∧ effects w = FetchConfig :: (if truthy secondsFromUrl then [GetUserMedia] else [])).
  { unfold w, typingEffect, autoStart, startCallRequest, timerEffect, readSecondsParam.
    destruct secondsFromUrl as [[|c s]|]; simpl; [done| |done].
    destruct (parseInt (String c s)) as [n|]; [|done].
    destruct (0 <? n); done. }
  destruct Hw as [Hc He]. by rewrite commit_idle_effects.
Qed.

(** X11. However the page is driven, it fetches the remote configuration
    exactly once, and asks for the camera and microphone once when the
    entry link carries a non-empty [seconds] value and never otherwise. *)
Theorem capture_requested_at_most_once origin secondsFromUrl evs :
  configFetches (run origin evs (mount secondsFromUrl)) = 1%nat
  ∧ captureRequests (run origin evs (mount secondsFromUrl))
    = (if truthy secondsFromUrl then 1%nat else 0%nat).
Proof.
  destruct (run_requests origin evs (mount secondsFromUrl)) as [-> ->].
  unfold captureRequests, configFetches. rewrite mount_effects.
  by destruct (truthy secondsFromUrl).
Qed.

(** X6. With no [seconds] value (absent or empty) the page never enters a
    call and never has a capture request pending: the guided chat is
    rendered in every world it can reach. *)
Theorem no_parameter_never_calls origin secondsFromUrl evs :
  truthy secondsFromUrl = false →
  inCall (run origin evs (mount secondsFromUrl)) = false
  ∧ pendingMedia (run origin evs (mount secondsFromUrl)) = 0%nat
  ∧ chatVisible (run origin evs (mount secondsFromUrl)) = true.
Proof.
  intros Hfalsy.
  destruct (mount_view secondsFromUrl) as ([= _ _ Hp Hc] & _).
  rewrite Hfalsy in Hp.
  destruct (idle_run origin evs _ Hp Hc) as [Hp' Hc'].
  split; [exact Hc'|]. split; [exact Hp'|].
  unfold chatVisible. rewrite Hc', run_hasDurationParam, mount_hasDurationParam.
  rewrite bool_decide_eq_false_2; [done|].
  intros [n Hn]. unfold linkSeconds in Hn.
  by destruct secondsFromUrl as [[|c s]|].
Qed.

Lemma no_parameter_never_calls_witness :
  inCall (run "" [ClickPackage 0; MediaResolved (Granted [AudioTrack]); ClickMic]
            (mount (Some ""))) = false
  ∧ pendingMedia (run "" [ClickPackage 0; MediaResolved (Granted [AudioTrack]); ClickMic]
                    (mount (Some ""))) = 0%nat
  ∧ chatVisible (run "" [ClickPackage 0; MediaResolved (Granted [AudioTrack]); ClickMic]
                   (mount (Some ""))) = true.
Proof.
  apply (no_parameter_never_calls ""
    (Some "") [ClickPackage 0; MediaResolved (Granted [AudioTrack]); ClickMic]).
  reflexivity.
Defined.

(** X14. Once a session is out of call with no capture request pending it
    stays so whatever happens next: the call cannot be started again.  In
    direct mode the page then renders neither the chat nor the call
    room. *)
Theorem ended_session_stays_ended origin evs w :
  pendingMedia w = 0%nat →
  inCall w = false →
  inCall (run origin evs w) = false
  ∧ pendingMedia (run origin evs w) = 0%nat
  ∧ captureRequests (run origin evs w) = captureRequests w
  ∧ (hasDurationParam w = true →
     chatVisible (run origin evs w) = false ∧ roomVisible (run origin evs w) = false).
Proof.
  intros Hp Hc. destruct (idle_run origin evs w Hp Hc) as [Hp' Hc'].
  split; [exact Hc'|]. split; [exact Hp'|]. split; [apply run_requests|].
  intros Hflag. unfold chatVisible, roomVisible.
  by rewrite run_hasDurationParam, Hflag, Hc'.
Qed.

(** A direct-mode call that was hung up. *)
Definition hungUpCall : World :=
  run "" [MediaResolved (Granted [AudioTrack; VideoTrack]); IntervalFired 1 Eager; ClickHangup]
    (mount (Some "600")).

Lemma ended_session_stays_ended_witness :
  inCall (run "" [MediaResolved (Granted [AudioTrack; VideoTrack]); ClickMic] hungUpCall)
    = false
  ∧ chatVisible (run "" [MediaResolved (Granted [AudioTrack; VideoTrack]); ClickMic] hungUpCall)
    = false
  ∧ roomVisible (run "" [MediaResolved (Granted [AudioTrack; VideoTrack]); ClickMic] hungUpCall)
    = false.
Proof.
  destruct (ended_session_stays_ended ""
    [MediaResolved (Granted [AudioTrack; VideoTrack]); ClickMic] hungUpCall)
    as (H1 & _ & _ & H4); [vm_compute; reflexivity..|].
  destruct H4 as [H5 H6]; [vm_compute; reflexivity|].
  exact (conj H1 (conj H5 H6)).
Defined.

(** ** Invariants of the call session *)

(** X7. In every world the page can reach, each captured track is enabled
    exactly when the flag of its kind is on: audio tracks follow [micOn],
    video tracks follow [camOn]. *)
Theorem flags_reflect_tracks origin w tracks t :
  reachable origin w →
  selfStreamRef w = Some tracks →
  t ∈ tracks →
  enabled t = match kind t with
              | AudioTrack => micOn (mediaState w)
              | VideoTrack => camOn (mediaState w)
              end.
Proof.
  intros Hr Hs Ht. destruct (reachable_inv origin w Hr) as [[Hflags _] _].
  specialize (Hflags tracks Hs). rewrite Forall_forall in Hflags.
  apply (Hflags t Ht).
Qed.

Lemma flags_reflect_tracks_witness :
  enabled {| kind := AudioTrack; enabled := false |} = micOn (mediaState mutedCall).
Proof.
  apply (flags_reflect_tracks "" mutedCall
    [ {| kind := AudioTrack; enabled := false |}; {| kind := VideoTrack; enabled := true |} ]
    {| kind := AudioTrack; enabled := false |}).
  - exists (Some "600"), [MediaResolved (Granted [AudioTrack; VideoTrack]); ClickMic].
    reflexivity.
  - vm_compute. reflexivity.
  - apply list_elem_of_here.
Defined.

(** X8. In every world the page can reach, the table of active intervals
    holds exactly one timer while in call, the one recorded in [timerRef],
    created with the current effective limit, and is empty out of call. *)
Theorem one_interval_while_in_call origin w :
  reachable origin w →
  (inCall w = true →
   ∃ h, timerRef w = Some h
        ∧ intervals w = {[ h := effectiveLimitSeconds (durationLimitSeconds w) ]})
  ∧ (inCall w = false → timerRef w = None ∧ intervals w = ∅).
Proof.
  intros Hr. destruct (reachable_inv origin w Hr) as [_ Ht].
  unfold timerInv in Ht. destruct (inCall w); split; intros; done.
Qed.

Lemma one_interval_while_in_call_witness :
  (inCall runningCall = true →
   ∃ h, timerRef runningCall = Some h
        ∧ intervals runningCall
          = {[ h := effectiveLimitSeconds (durationLimitSeconds runningCall) ]})
  ∧ (inCall runningCall = false → timerRef runningCall = None ∧ intervals runningCall = ∅).
Proof.
  apply (one_interval_while_in_call "" runningCall).
  exists (Some "600"),
    [MediaResolved (Granted [AudioTrack; VideoTrack]); IntervalFired 1 Eager].
  reflexivity.
Defined.

(** The stream is held exactly while in call, and [connecting] is set
    exactly while the capture request is pending. *)
Definition streamInv (w : World) : Prop :=
  inCall w = bool_decide (is_Some (selfStreamRef w))
  ∧ connecting w = bool_decide (0 < pendingMedia w)%nat.

Lemma streamInv_endCall w : streamInv w → streamInv (endCall w).
Proof.
  unfold streamInv.
  destruct w as [? ? ? ? ? ? ? ? ? ? ? ? ? ? stream timer ? ? ? ? ?].
  unfold endCall, stopMediaTracks, clearInterval.
  destruct stream, timer; wsimpl; intros [_ Hc]; split; try done.
Qed.

Lemma streamInv_view w w' : sessionView w = sessionView w' → streamInv w → streamInv w'.
Proof.
  unfold sessionView, streamInv. intros [= Hc Hn _ _ Hs Hp _ _].
  by rewrite Hc, Hn, Hs, Hp.
Qed.

Lemma streamInv_dispatch origin ev w :
  mediaInv w → streamInv w → streamInv (dispatch origin ev w).
Proof.
  intros [_ Hcap] Hinv. unfold dispatch.
  assert (Hh : streamInv (handle origin ev w)).
  { destruct (handle_session_cases origin ev w)
      as [Hv|[(r & Hpos & ->)|[(h & limit & path & _ & ->)|(Hroom & Hcases)]]].
    - by eapply streamInv_view.
    - destruct (Hcap Hpos) as (Hc & _ & Hone). destruct Hinv as [Hs _].
      rewrite Hc in Hs. symmetry in Hs. apply bool_decide_eq_false in Hs.
      unfold streamInv.
      destruct w as [? ? ? ? ? ? ? ? ? ? ? ? ? ? stream ? ? ? ? pending ?].
      wsimpl in Hone. wsimpl in Hs. wsimpl in Hc. subst.
      unfold startCallResume, requestMediaResume. destruct r; wsimpl.
      + by rewrite bool_decide_eq_true_2 by eauto.
      + by rewrite bool_decide_eq_false_2.
    - unfold intervalCallback, durationUpdater.
      destruct (limit <=? duration w + 1); [destruct path|].
      + rewrite endCall_setDuration. by apply streamInv_endCall.
      + by apply (streamInv_endCall w).
      + exact Hinv.
    - destruct Hcases as [Hh|[Hh|Hh]]; rewrite Hh; [| |by apply streamInv_endCall].
      + unfold streamInv, toggleMic in *.
        destruct w as [? ? ? ? ? ? ? ? ? ? ? ? ? ? stream ? ? ? ? ? ?].
        destruct stream; wsimpl; wsimpl in Hinv; done.
      + unfold streamInv, toggleCam in *.
        destruct w as [? ? ? ? ? ? ? ? ? ? ? ? ? ? stream ? ? ? ? ? ?].
        destruct stream; wsimpl; wsimpl in Hinv; done. }
  unfold streamInv in *.
  by rewrite commit_inCall, commit_selfStreamRef, commit_connecting, commit_pendingMedia.
Qed.

Lemma streamInv_mount secondsFromUrl : streamInv (mount secondsFromUrl).
Proof.
  destruct (mount_view secondsFromUrl) as ([= Hs _ Hp Hc] & _).
  unfold streamInv. rewrite Hc, Hs, Hp. split; [done|].
  unfold mount. rewrite commit_connecting.
  unfold typingEffect, autoStart, startCallRequest, timerEffect, readSecondsParam.
  destruct secondsFromUrl as [[|c s]|]; simpl; [done| |done].
  destruct (parseInt (String c s)) as [n|]; [|done].
  destruct (0 <? n); done.
Qed.

(** X9. In every world the page can reach, a local stream is held exactly
    while in call, and [connecting] is true exactly while the capture
    request is still pending. *)
Theorem stream_held_only_in_call origin w :
  reachable origin w →
  (inCall w = true ↔ is_Some (selfStreamRef w))
  ∧ (connecting w = true ↔ (0 < pendingMedia w)%nat).
Proof.
  intros Hr.
  assert (Hinv : mediaInv w ∧ streamInv w).
  { revert w Hr. apply reachable_induction.
    - intros l. split; [apply mediaInv_mount|apply streamInv_mount].
    - intros ev w Hr [Hm Hs]. split.
      + apply mediaInv_commit, mediaInv_handle, Hm.
      + by apply streamInv_dispatch. }
  destruct Hinv as [_ [Hc Hn]]. rewrite Hc, Hn.
  split; apply bool_decide_eq_true.
Qed.

Lemma stream_held_only_in_call_witness :
  (inCall hungUpCall = true ↔ is_Some (selfStreamRef hungUpCall))
  ∧ (connecting hungUpCall = true ↔ (0 < pendingMedia hungUpCall)%nat).
Proof.
  apply (stream_held_only_in_call "" hungUpCall).
  exists (Some "600"),
    [MediaResolved (Granted [AudioTrack; VideoTrack]); IntervalFired 1 Eager; ClickHangup].
  reflexivity.
Defined.

(** In direct mode the limit is a positive number and the elapsed seconds
    stay within it, strictly while in call. *)
Definition boundInv (w : World) : Prop :=
  hasDurationParam w = true →
  ∃ n, durationLimitSeconds w = Some n ∧ 0 < n
       ∧ 0 ≤ duration w ≤ n ∧ (inCall w = true → duration w < n).

Lemma fired_limit w h limit :
  timerInv w → intervals w !! h = Some limit →
  inCall w = true ∧ limit = effectiveLimitSeconds (durationLimitSeconds w).
Proof.
  unfold timerInv. intros Ht Hi. destruct (inCall w).
  - destruct Ht as (h0 & _ & Hint). rewrite Hint in Hi.
    apply lookup_singleton_Some in Hi as [_ <-]. done.
  - destruct Ht as [_ Hint]. by rewrite Hint, lookup_empty in Hi.
Qed.

Lemma boundInv_dispatch origin ev w :
  timerInv w → boundInv w → boundInv (dispatch origin ev w).
Proof.
  intros Ht Hb Hflag. rewrite dispatch_hasDurationParam in Hflag.
  destruct (Hb Hflag) as (n & Hl & Hn & Hd & Hin). exists n.
  unfold dispatch. rewrite commit_durationLimitSeconds, commit_duration, commit_inCall.
  rewrite handle_durationLimitSeconds, Hl. split; [done|]. split; [done|].
  destruct (handle_session_cases origin ev w)
    as [Hv|[(r & Hpos & ->)|[(h & limit & path & Hi & ->)|(Hroom & Hcases)]]].
  - unfold sessionView in Hv. injection Hv as Hc' _ Hd' _ _ _ _ _. by rewrite Hc', Hd'.
  - destruct w as [c ? d ? ? ? ? ? ? ? ? ? ? ? ? ? ? ? ? ? ?].
    wsimpl in Hd. wsimpl in Hin.
    unfold startCallResume, requestMediaResume. destruct r; wsimpl; [lia|done].
  - destruct (fired_limit w h limit Ht Hi) as [Hc ->]. rewrite Hl.
    change (effectiveLimitSeconds (Some n)) with n. specialize (Hin Hc).
    unfold intervalCallback, durationUpdater.
    destruct (Z.leb_spec n (duration w + 1)); cbv beta iota; [destruct path|].
    + rewrite endCall_setDuration. destruct (endCall_fields w) as (-> & -> & _). lia.
    + change (duration (setDuration (duration w + 1) (endCall w))) with (duration w + 1).
      change (inCall (setDuration (duration w + 1) (endCall w))) with (inCall (endCall w)).
      destruct (endCall_fields w) as (-> & _). lia.
    + change (duration (setDuration (duration w + 1) w)) with (duration w + 1).
      change (inCall (setDuration (duration w + 1) w)) with (inCall w). lia.
  - destruct Hcases as [Hh|[Hh|Hh]]; rewrite Hh.
    + unfold toggleMic. by case_match.
    + unfold toggleCam. by case_match.
    + destruct (endCall_fields w) as (-> & -> & _). lia.
Qed.

Lemma mount_duration secondsFromUrl : duration (mount secondsFromUrl) = 0.
Proof.
  unfold mount. rewrite commit_duration.
  unfold typingEffect, autoStart, startCallRequest, timerEffect, readSecondsParam.
  destruct secondsFromUrl as [[|c s]|]; simpl; [done| |done].
  destruct (parseInt (String c s)) as [n|]; [|done].
  destruct (0 <? n); done.
Qed.

Lemma linkSeconds_positive secondsFromUrl n : linkSeconds secondsFromUrl = Some n → 0 < n.
Proof.
  unfold linkSeconds. destruct secondsFromUrl as [s|]; [|done].
  destruct (parseInt s) as [m|]; [|done].
  destruct (Z.ltb_spec 0 m); [|done]. by intros [= <-].
Qed.

Lemma boundInv_mount secondsFromUrl : boundInv (mount secondsFromUrl).
Proof.
  intros Hflag. rewrite mount_hasDurationParam in Hflag.
  apply bool_decide_eq_true in Hflag as [n Hn]. exists n.
  rewrite mount_durationLimitSeconds, mount_duration.
  destruct (mount_view secondsFromUrl) as ([= _ _ _ Hc] & _). rewrite Hc.
  pose proof (linkSeconds_positive _ _ Hn). split_and!; [done|lia|lia|lia|done].
Qed.

(** X10. In direct mode the elapsed seconds never exceed the limit taken
    from the link, and stay strictly below it while the call is on. *)
Theorem elapsed_within_link_limit origin secondsFromUrl n evs :
  linkSeconds secondsFromUrl = Some n →
  0 ≤ duration (run origin evs (mount secondsFromUrl)) ≤ n
  ∧ (inCall (run origin evs (mount secondsFromUrl)) = true →
     duration (run origin evs (mount secondsFromUrl)) < n).
Proof.
  intros Hlink.
  assert (Hr : reachable origin (run origin evs (mount secondsFromUrl))).
  { by exists secondsFromUrl, evs. }
  assert (Hinv : timerInv (run origin evs (mount secondsFromUrl))
                 ∧ boundInv (run origin evs (mount secondsFromUrl))).
  { revert Hr. generalize (run origin evs (mount secondsFromUrl)).
    apply reachable_induction.
    - intros l. split; [apply timerInv_mount|apply boundInv_mount].
    - intros ev w _ [Ht Hb]. split; [by apply timerInv_dispatch|by apply boundInv_dispatch]. }
  destruct Hinv as [_ Hb].
  assert (Hflag : hasDurationParam (run origin evs (mount secondsFromUrl)) = true).
  { rewrite run_hasDurationParam, mount_hasDurationParam, Hlink.
    by apply bool_decide_eq_true_2. }
  destruct (Hb Hflag) as (m & Hl & _ & Hd & Hin).
  rewrite run_durationLimitSeconds, mount_durationLimitSeconds, Hlink in Hl.
  by injection Hl as <-.
Qed.

Lemma elapsed_within_link_limit_witness :
  0 ≤ duration (run "" [MediaResolved (Granted [AudioTrack]); IntervalFired 1 Eager;
                        IntervalFired 1 Eager; IntervalFired 1 Eager]
                  (mount (Some "3"))) ≤ 3.
Proof.
  apply (elapsed_within_link_limit "" (Some "3") 3
    [MediaResolved (Granted [AudioTrack]); IntervalFired 1 Eager;
     IntervalFired 1 Eager; IntervalFired 1 Eager]).
  reflexivity.
Defined.

(** ** Camera toggle, and both toggles together *)

(** X12. In every world the page can reach, [toggleCam] applied twice
    gives back the same world: the camera flag and the enabled state of
    every captured track are restored. *)
Theorem toggleCam_twice origin w :
  reachable origin w → toggleCam (toggleCam w) = w.
Proof.
  intros Hr. destruct (reachable_inv origin w Hr) as [[Ht _] _].
  by apply toggleCam_twice_inv.
Qed.

Lemma toggleCam_twice_witness : toggleCam (toggleCam mutedCall) = mutedCall.
Proof.
  apply (toggleCam_twice "" mutedCall).
  exists (Some "600"), [MediaResolved (Granted [AudioTrack; VideoTrack]); ClickMic].
  reflexivity.
Defined.

Lemma setEnabled_commute a b t :
  setEnabled AudioTrack a (setEnabled VideoTrack b t)
  = setEnabled VideoTrack b (setEnabled AudioTrack a t).
Proof. destruct t as [[] e]; reflexivity. Qed.

(** X13. The two toggles do not interfere: in any world, muting and
    turning the camera off give the same result in either order. *)
Theorem toggles_commute w : toggleMic (toggleCam w) = toggleCam (toggleMic w).
Proof.
  destruct w as [? ? ? [mic cam] ? ? ? ? ? ? ? ? ? ? stream ? ? ? ? ? ?].
  unfold toggleMic, toggleCam. destruct stream as [tracks|]; wsimpl; cbn [micOn camOn];
    [|done].
  do 2 f_equal. rewrite <- !list_fmap_compose. apply list_fmap_ext.
  intros _ t _. apply setEnabled_commute.
Qed.

(** ** Teardown *)

(** The cleanup of the unmount effect. *)
Definition teardown (w : World) : World :=
  let w := stopMediaTracks w in
  match timerRef w with
  | Some handle => clearInterval handle w
  | None => w
  end.

(** Unmounting the page runs the cleanups of its effects in declaration
    order: that of the timer effect (when its last run found [inCall]
    true), that of the unmount effect, that of the pacing effect. *)
Definition unmount (w : World) : World :=
  let w := if inCall w then timerCleanup w else w in
  let w := teardown w in
  typingCleanup w.

(** X15. Unmounting from any world the page can reach leaves no active
    interval, no stream and no pending pacing timeout; it clears the
    interval once and stops each captured track once. *)
Theorem unmount_releases_everything origin w :
  reachable origin w →
  intervals (unmount w) = ∅
  ∧ selfStreamRef (unmount w) = None
  ∧ pendingTimeout (unmount w) = None
  ∧ effects (unmount w)
    = effects w ++ (ClearInterval <$> option_list (timerRef w))
        ++ (TrackStop <$> default [] (selfStreamRef w)).
Proof.
  intros Hr. destruct (reachable_inv origin w Hr) as [_ Ht].
  unfold timerInv in Ht. unfold unmount, teardown, timerCleanup, typingCleanup,
    stopMediaTracks, clearInterval.
  destruct w as [c ? ? ? ? ? ? ? ? ? ? ? ? ? stream timer table ? ? ? ?].
  destruct c; wsimpl in Ht.
  - destruct Ht as (h & -> & ->).
    destruct stream; wsimpl; cbn [default from_option option_list fmap list_fmap];
      split_and!; try done; try apply delete_singleton_eq;
      by rewrite ?app_nil_r, <- ?app_assoc.
  - destruct Ht as [-> ->].
    destruct stream; wsimpl; cbn [default from_option option_list fmap list_fmap];
      split_and!; try done; by rewrite ?app_nil_r, <- ?app_assoc.
Qed.

Lemma unmount_releases_everything_witness :
  intervals (unmount runningCall) = ∅
  ∧ selfStreamRef (unmount runningCall) = None
  ∧ pendingTimeout (unmount runningCall) = None
  ∧ effects (unmount runningCall)
    = effects runningCall ++ (ClearInterval <$> option_list (timerRef runningCall))
        ++ (TrackStop <$> default [] (selfStreamRef runningCall)).
Proof.
  apply (unmount_releases_everything "" runningCall).
  exists (Some "600"),
    [MediaResolved (Granted [AudioTrack; VideoTrack]); IntervalFired 1 Eager].
  reflexivity.
Defined.


(** ** Guided chat: selections and pacing *)

#[local] Set Warnings "-clear-no-such-hyp".

(** The table of the pacing effect: delay and target of each composing
    step. *)
Definition typingTarget (step : ChatStep) : option (Z * ChatStep) :=
  match step with
  | step_minutes_confirmed => Some (700, step_contact_typing)
  | step_contact_typing => Some (800, step_contact)
  | step_contact_confirmed => Some (700, step_summary_typing)
  | step_summary_typing => Some (800, step_summary)
  | _ => None
  end.

(** The steps that come after the contact form was submitted. *)
Definition afterContact (step : ChatStep) : bool :=
  match step with
  | step_contact_confirmed | step_summary_typing | step_summary | step_finished => true
  | _ => false
  end.

(** The steps that come after a package was picked. *)
Definition afterPackage (step : ChatStep) : bool :=
  match step with
  | step_intro | step_minutes => false
  | _ => true
  end.

Definition selectionsInv (w : World) : Prop :=
  (∀ p, selectedPackage w = Some p → p ∈ PACKAGES)
  ∧ (afterPackage (chatStep w) = true → is_Some (selectedPackage w))
  ∧ (afterContact (chatStep w) = true →
     is_Some (contactChannel w) ∧ trim (contactValue w) ≠ "").

Definition pacingInv (w : World) : Prop :=
  pendingTimeout w = typingTarget (chatStep w)
  ∧ (is_Some (typingTarget (chatStep w)) → isTyping w = true).

Definition chatView (w : World) :=
  (chatStep w, selectedPackage w, contactChannel w, contactValue w, isTyping w,
   pendingTimeout w).

Lemma selectionsInv_view w w' : chatView w = chatView w' → selectionsInv w → selectionsInv w'.
Proof.
  unfold chatView, selectionsInv. intros [= Hs Hp Hc Hv _ _]. by rewrite Hs, Hp, Hc, Hv.
Qed.

Lemma pacingInv_view w w' : chatView w = chatView w' → pacingInv w → pacingInv w'.
Proof.
  unfold chatView, pacingInv. intros [= Hs _ _ _ Ht Hp]. by rewrite Hs, Ht, Hp.
Qed.

(** What [commit] does to the pacing fields. *)
Lemma commit_pacing old w :
  pendingTimeout (commit old w)
    = (if stepChanged old w then typingTarget (chatStep w) else pendingTimeout w)
  ∧ isTyping (commit old w)
    = (if stepChanged old w
       then match typingTarget (chatStep w) with
            | Some _ => true
            | None => isTyping w
            end
       else isTyping w).
Proof.
  unfold commit.
  destruct (timerDepsChanged old w), (stepChanged old w), (inCall old);
    cbn [andb];
    unfold timerEffect, timerCleanup, typingEffect, typingCleanup, clearInterval;
    destruct w as [c ? ? ? ? ? ? ? ? step ? ? ? ? ? timer ? ? ? ? ?];
    destruct c, step, timer; wsimpl; done.
Qed.

Lemma chatInv_commit old w :
  selectionsInv w →
  (chatStep old = chatStep w → pacingInv w) →
  selectionsInv (commit old w) ∧ pacingInv (commit old w).
Proof.
  intros Hsel Hpace. split.
  - unfold selectionsInv in *.
    by rewrite commit_chatStep, commit_selectedPackage, commit_contactChannel,
      commit_contactValue.
  - unfold pacingInv. destruct (commit_pacing old w) as [-> ->].
    rewrite commit_chatStep. unfold stepChanged.
    case_bool_decide as Hstep; cbn [negb].
    + by apply Hpace.
    + split; [done|]. by intros [t ->].
Qed.

Ltac chat_same Hsel Hpace :=
  split; [by eapply selectionsInv_view; [|exact Hsel]
         |intros _; by eapply pacingInv_view; [|exact Hpace]].

Lemma chatInv_handle origin ev w :
  selectionsInv w → pacingInv w →
  selectionsInv (handle origin ev w)
  ∧ (chatStep w = chatStep (handle origin ev w) → pacingInv (handle origin ev w)).
Proof.
  intros Hsel Hpace. unfold handle.
  destruct ev as [data|r|h path| |i|c|v| | | | | | | ].
  - unfold configLoaded. destruct data; chat_same Hsel Hpace.
  - case_bool_decide; [|chat_same Hsel Hpace].
    unfold startCallResume, requestMediaResume. destruct r; chat_same Hsel Hpace.
  - unfold intervalFired. destruct (intervals w !! h) as [limit|]; [|chat_same Hsel Hpace].
    unfold intervalCallback, durationUpdater.
    destruct (limit <=? duration w + 1); [|chat_same Hsel Hpace].
    assert (Hend : ∀ w0, chatView (endCall w0) = chatView w0).
    { intros w0. destruct w0 as [? ? ? ? ? ? ? ? ? ? ? ? ? ? stream timer ? ? ? ? ?].
      unfold endCall, stopMediaTracks, clearInterval. by destruct stream, timer. }
    destruct path.
    + rewrite endCall_setDuration.
      split; [by eapply selectionsInv_view; [symmetry; apply Hend|]
             |intros _; by eapply pacingInv_view; [symmetry; apply Hend|]].
    + split; [eapply selectionsInv_view; [|exact Hsel]
             |intros _; eapply pacingInv_view; [|exact Hpace]];
        symmetry; apply (Hend w).
  - (* timeout *)
    unfold timeoutFired, selectionsInv, pacingInv in *.
    destruct w as [? ? ? ? ? ? ? ? ? step pkg chan val typing ? ? ? ? pending ? ?].
    wsimpl in Hsel. wsimpl in Hpace. destruct Hpace as [-> Htyping].
    destruct step; wsimpl; cbn [typingTarget afterContact afterPackage] in *;
      naive_solver.
  - (* package *)
    destruct (PACKAGES !! i) as [pkg|] eqn:Hpkg; [|chat_same Hsel Hpace].
    case_match; [|chat_same Hsel Hpace].
    apply list_elem_of_lookup_2 in Hpkg.
    unfold packageClick, selectionsInv, pacingInv in *.
    destruct w as [? ? ? ? ? ? ? ? ? step pkg0 chan val typing ? ? ? ? pending ? ?].
    wsimpl in Hsel. wsimpl in Hpace. wsimpl.
    split; [|intros; subst; destruct Hpace; naive_solver].
    split_and!; [by intros p [= <-]|eauto|done].
  - (* channel *)
    case_match eqn:Hgate; [|chat_same Hsel Hpace].
    apply andb_true_iff in Hgate as [[_ Hstep%bool_decide_eq_true]%andb_true_iff _].
    unfold selectionsInv, pacingInv in *.
    destruct w as [? ? ? ? ? ? ? ? ? step pkg0 chan val typing ? ? ? ? pending ? ?].
    wsimpl in Hsel. wsimpl in Hpace. wsimpl in Hstep. subst. wsimpl.
    cbn [afterContact afterPackage] in *. naive_solver.
  - (* contact value *)
    case_match eqn:Hgate; [|chat_same Hsel Hpace].
    apply andb_true_iff in Hgate
      as [[[_ Hstep%bool_decide_eq_true]%andb_true_iff _]%andb_true_iff _].
    unfold selectionsInv, pacingInv in *.
    destruct w as [? ? ? ? ? ? ? ? ? step pkg0 chan val typing ? ? ? ? pending ? ?].
    wsimpl in Hsel. wsimpl in Hpace. wsimpl in Hstep. subst. wsimpl.
    cbn [afterContact afterPackage] in *. naive_solver.
  - (* back *)
    case_match; [|chat_same Hsel Hpace].
    unfold backClick, selectionsInv, pacingInv in *.
    destruct w as [? ? ? ? ? ? ? ? ? step pkg0 chan val typing ? ? ? ? pending ? ?].
    wsimpl in Hsel. wsimpl in Hpace.
    destruct step; wsimpl; cbn [afterContact afterPackage typingTarget] in *;
      naive_solver.
  - (* continue *)
    case_match eqn:Hgate; [|chat_same Hsel Hpace].
    apply andb_true_iff in Hgate as [[_ Hstep%bool_decide_eq_true]%andb_true_iff Hen].
    unfold continueDisabled in Hen.
    apply negb_true_iff, orb_false_iff in Hen as [Hchan Hval].
    apply negb_false_iff, bool_decide_eq_true in Hchan.
    apply bool_decide_eq_false in Hval.
    unfold continueClick, selectionsInv, pacingInv in *.
    destruct w as [? ? ? ? ? ? ? ? ? step pkg0 chan val typing ? ? ? ? pending ? ?].
    wsimpl in Hsel. wsimpl in Hpace. wsimpl in Hstep. wsimpl in Hchan. wsimpl in Hval.
    subst. wsimpl. cbn [afterContact afterPackage] in *. naive_solver.
  - (* generate *)
    destruct (selectedPackage w) as [pkg|] eqn:Hpkg; [|chat_same Hsel Hpace].
    case_match eqn:Hgate; [|chat_same Hsel Hpace].
    apply andb_true_iff in Hgate as [_ Hstep%bool_decide_eq_true].
    unfold generateClick, selectionsInv, pacingInv in *.
    destruct w as [? ? ? ? ? ? ? ? ? step pkg0 chan val typing ? ? ? ? pending ? ?].
    wsimpl in Hsel. wsimpl in Hpace. wsimpl in Hstep. wsimpl in Hpkg. subst. wsimpl.
    cbn [afterContact afterPackage] in *. naive_solver.
  - (* create another *)
    case_match; [|chat_same Hsel Hpace].
    unfold createAnotherClick, selectionsInv, pacingInv in *.
    destruct w as [? ? ? ? ? ? ? ? ? step pkg0 chan val typing ? ? ? ? pending ? ?].
    wsimpl in Hsel. wsimpl in Hpace. wsimpl.
    cbn [afterContact afterPackage typingTarget] in *. naive_solver.
  - case_match; [|chat_same Hsel Hpace]. unfold toggleMic.
    case_match; chat_same Hsel Hpace.
  - case_match; [|chat_same Hsel Hpace]. unfold toggleCam.
    case_match; chat_same Hsel Hpace.
  - case_match; [|chat_same Hsel Hpace].
    assert (Hend : chatView (endCall w) = chatView w).
    { clear. destruct w as [? ? ? ? ? ? ? ? ? ? ? ? ? ? stream timer ? ? ? ? ?].
      unfold endCall, stopMediaTracks, clearInterval. by destruct stream, timer. }
    split; [by eapply selectionsInv_view; [symmetry; apply Hend|]
           |intros _; by eapply pacingInv_view; [symmetry; apply Hend|]].
Qed.

Lemma chatInv_dispatch origin ev w :
  selectionsInv w ∧ pacingInv w →
  selectionsInv (dispatch origin ev w) ∧ pacingInv (dispatch origin ev w).
Proof.
  intros [Hsel Hpace]. unfold dispatch.
  destruct (chatInv_handle origin ev w Hsel Hpace) as [Hsel' Hpace'].
  by apply chatInv_commit.
Qed.

Lemma chatInv_mount secondsFromUrl :
  selectionsInv (mount secondsFromUrl) ∧ pacingInv (mount secondsFromUrl).
Proof.
  assert (Hview : chatView (mount secondsFromUrl) = chatView initialWorld).
  { unfold mount. set (w := typingEffect _).
    assert (Hw : chatView w = chatView initialWorld).
    { unfold w, typingEffect, autoStart, startCallRequest, timerEffect, readSecondsParam.
      destruct secondsFromUrl as [[|c s]|]; simpl; [done| |done].
      destruct (parseInt (String c s)) as [n|]; [|done].
      destruct (0 <? n); done. }
    injection Hw as Hs Hp Hc Hv Ht Hpend.
    unfold chatView.
    destruct (commit_pacing initialWorld w) as [-> ->].
    rewrite commit_chatStep, commit_selectedPackage, commit_contactChannel,
      commit_contactValue.
    unfold stepChanged. rewrite Hs, Hp, Hc, Hv, Ht, Hpend. reflexivity. }
  split; [eapply selectionsInv_view|eapply pacingInv_view]; try (symmetry; exact Hview).
  - unfold selectionsInv. cbn. split_and!; [done|done|done].
  - unfold pacingInv. cbn. split; [done|]. by intros [? ?].
Qed.

Lemma reachable_chatInv origin w :
  reachable origin w → selectionsInv w ∧ pacingInv w.
Proof.
  revert w. apply reachable_induction.
  - apply chatInv_mount.
  - intros ev w _ Hinv. by apply chatInv_dispatch.
Qed.

(** X16. In every world the page can reach, a selected package is one of
    the catalog; past the package step a package is selected; and past
    the contact form a channel is chosen and the contact value is not
    blank. *)
Theorem chat_selections_present origin w :
  reachable origin w →
  (∀ p, selectedPackage w = Some p → p ∈ PACKAGES)
  ∧ (afterPackage (chatStep w) = true → is_Some (selectedPackage w))
  ∧ (afterContact (chatStep w) = true →
     is_Some (contactChannel w) ∧ trim (contactValue w) ≠ "").
Proof. intros Hr. by destruct (reachable_chatInv origin w Hr) as [Hsel _]. Qed.

Lemma chat_selections_present_witness :
  (∀ p, selectedPackage summaryScenario = Some p → p ∈ PACKAGES)
  ∧ (afterPackage (chatStep summaryScenario) = true
     → is_Some (selectedPackage summaryScenario))
  ∧ (afterContact (chatStep summaryScenario) = true →
     is_Some (contactChannel summaryScenario)
     ∧ trim (contactValue summaryScenario) ≠ "").
Proof.
  apply (chat_selections_present "https://call.example" summaryScenario).
  eexists None, _. reflexivity.
Defined.

(** X18. In every world the page can reach, a pacing timeout is pending
    exactly in the four composing steps, with the delay and the target of
    the effect's table, and the typing indicator is on there; when it
    fires the chat is at the target step, and the indicator is on again
    only if that step is a composing one too. *)
Theorem pacing_follows_step origin w :
  reachable origin w →
  pendingTimeout w = typingTarget (chatStep w)
  ∧ (is_Some (typingTarget (chatStep w)) → isTyping w = true)
  ∧ (∀ delay next, typingTarget (chatStep w) = Some (delay, next) →
     chatStep (dispatch origin TimeoutFired w) = next
     ∧ isTyping (dispatch origin TimeoutFired w)
       = bool_decide (is_Some (typingTarget next))).
Proof.
  intros Hr. destruct (reachable_chatInv origin w Hr) as [_ [Hpend Htyping]].
  split; [exact Hpend|]. split; [exact Htyping|].
  intros delay next Hstep. rewrite Hstep in Hpend. unfold dispatch.
  destruct (commit_pacing w (handle origin TimeoutFired w)) as [_ ->].
  rewrite commit_chatStep. unfold stepChanged, handle, timeoutFired. rewrite Hpend.
  change (chatStep (setChatStep next _)) with next.
  split; [done|].
  destruct (chatStep w); try discriminate Hstep; injection Hstep as <- <-; reflexivity.
Qed.

Lemma pacing_follows_step_witness :
  pendingTimeout (run "" [ClickPackage 1] (mount None))
    = typingTarget (chatStep (run "" [ClickPackage 1] (mount None)))
  ∧ (is_Some (typingTarget (chatStep (run "" [ClickPackage 1] (mount None))))
     → isTyping (run "" [ClickPackage 1] (mount None)) = true)
  ∧ (∀ delay next,
       typingTarget (chatStep (run "" [ClickPackage 1] (mount None))) = Some (delay, next) →
       chatStep (dispatch "" TimeoutFired (run "" [ClickPackage 1] (mount None))) = next
       ∧ isTyping (dispatch "" TimeoutFired (run "" [ClickPackage 1] (mount None)))
         = bool_decide (is_Some (typingTarget next))).
Proof.
  apply (pacing_follows_step "" (run "" [ClickPackage 1] (mount None))).
  by exists None, [ClickPackage 1].
Defined.

(** X19. Back pressed while the summary is still being composed returns
    to the contact form with the typing indicator left on and no timeout
    pending that would turn it off. *)
Theorem back_while_composing_keeps_indicator origin w :
  reachable origin w →
  chatVisible w = true →
  chatStep w = step_summary_typing →
  chatStep (dispatch origin ClickBack w) = step_contact
  ∧ isTyping (dispatch origin ClickBack w) = true
  ∧ pendingTimeout (dispatch origin ClickBack w) = None.
Proof.
  intros Hr Hv Hs. destruct (reachable_chatInv origin w Hr) as [_ [_ Htyping]].
  rewrite Hs in Htyping. specialize (Htyping ltac:(by eexists)).
  assert (Hback : handle origin ClickBack w = setChatStep step_contact w).
  { unfold handle, backClick. rewrite Hv, Hs. reflexivity. }
  unfold dispatch. rewrite Hback.
  destruct (commit_pacing w (setChatStep step_contact w)) as [-> ->].
  rewrite commit_chatStep. unfold stepChanged.
  change (chatStep (setChatStep step_contact w)) with step_contact.
  rewrite Hs, bool_decide_eq_false_2 by done. cbn [negb typingTarget].
  split; [done|]. split; [exact Htyping|done].
Qed.

(** The summary scenario, one timeout short of the summary. *)
Definition composingSummary : World :=
  run "https://call.example"
    [ClickPackage 0; TimeoutFired; TimeoutFired; ClickChannel email;
     TypeContact "a@b.com"; ClickContinue; TimeoutFired] (mount None).

Lemma back_while_composing_keeps_indicator_witness :
  chatStep (dispatch "https://call.example" ClickBack composingSummary) = step_contact
  ∧ isTyping (dispatch "https://call.example" ClickBack composingSummary) = true
  ∧ pendingTimeout (dispatch "https://call.example" ClickBack composingSummary) = None.
Proof.
  apply (back_while_composing_keeps_indicator "https://call.example" composingSummary).
  - eexists None, _. reflexivity.
  - vm_compute. reflexivity.
  - vm_compute. reflexivity.
Defined.

(** ** Links opened by the page *)

Lemma catalog_seconds p :
  p ∈ PACKAGES → minutes p * 60 ∈ [600; 1200; 1800].
Proof.
  unfold PACKAGES. rewrite !elem_of_cons, elem_of_nil.
  intros [->|[->|[->|[]]]]; cbn [minutes]; set_solver.
Qed.

(** X17. Whatever the page is made to do, every [window.open] it has
    performed targets a new context and the hand-off link of a catalog
    package: [origin/?seconds=600], [1200] or [1800]. *)
Theorem only_catalog_links_opened origin w url target :
  reachable origin w →
  WindowOpen url target ∈ effects w →
  target = "_blank"
  ∧ ∃ seconds, seconds ∈ [600; 1200; 1800]
               ∧ url = origin +:+ "/?seconds=" +:+ pretty seconds.
Proof.
  intros Hr. revert url target.
  assert (Hinv : selectionsInv w
    ∧ ∀ url target, WindowOpen url target ∈ effects w →
        target = "_blank"
        ∧ ∃ seconds, seconds ∈ [600; 1200; 1800]
                     ∧ url = origin +:+ "/?seconds=" +:+ pretty seconds);
    [|by destruct Hinv].
  revert w Hr. apply reachable_induction.
  - intros l. split; [apply chatInv_mount|].
    intros url target. rewrite mount_effects.
    destruct (truthy l); rewrite !elem_of_cons, ?elem_of_nil; naive_solver.
  - intros ev w Hr [Hsel Hopen].
    destruct (reachable_chatInv origin w Hr) as [_ Hpace].
    split; [apply (chatInv_dispatch origin ev w (conj Hsel Hpace))|].
    intros url target.
    destruct (dispatch_effects origin ev w) as (es & -> & Hes).
    rewrite elem_of_app. intros [Hold|Hnew]; [by apply Hopen|].
    rewrite Forall_forall in Hes. specialize (Hes _ Hnew).
    destruct Hes as (-> & p & Hp & ->). split; [done|].
    exists (minutes p * 60). split; [|done].
    apply catalog_seconds. by apply Hsel.
Qed.

Lemma only_catalog_links_opened_witness :
  "_blank" = "_blank"
  ∧ ∃ seconds, seconds ∈ [600; 1200; 1800]
               ∧ "https://call.example/?seconds=600"
                 = "https://call.example" +:+ "/?seconds=" +:+ pretty seconds.
Proof.
  apply (only_catalog_links_opened "https://call.example"
    (dispatch "https://call.example" ClickGenerate summaryScenario)).
  - apply reachable_dispatch. eexists None, _. reflexivity.
  - vm_compute. apply list_elem_of_further, list_elem_of_here.
Defined.

(** ** The contact form *)

(** Skipping stops at a character that is not white space, so skipping
    again changes nothing. *)
Lemma skipWhiteSpace_idem s : skipWhiteSpace (skipWhiteSpace s) = skipWhiteSpace s.
Proof.
  assert (H : ∀ n s, (String.length s ≤ n)%nat →
            skipWhiteSpace (skipWhiteSpace s) = skipWhiteSpace s);
    [|by apply (H (String.length s))].
  clear s. induction n as [|n IH]; intros s Hn.
  { destruct s; [done|cbn in Hn; lia]. }
  destruct s as [|c1 s1]; [done|]. cbn [String.length] in Hn.
  cbn [skipWhiteSpace].
  destruct (isWhiteSpace1 (byteOf c1)) eqn:H1; [apply IH; lia|].
  destruct s1 as [|c2 s2]; [by cbn [skipWhiteSpace]; rewrite H1|].
  cbn [String.length] in Hn.
  destruct (isWhiteSpace2 (byteOf c1) (byteOf c2)) eqn:H2; [apply IH; lia|].
  destruct s2 as [|c3 s3]; [by cbn [skipWhiteSpace]; rewrite H1, H2|].
  cbn [String.length] in Hn.
  destruct (isWhiteSpace3 (byteOf c1) (byteOf c2) (byteOf c3)) eqn:H3; [apply IH; lia|].
  cbn [skipWhiteSpace]. by rewrite H1, H2, H3.
Qed.

Lemma isBlank_skipWhiteSpace s : isBlank (skipWhiteSpace s) = isBlank s.
Proof. unfold isBlank. by rewrite skipWhiteSpace_idem. Qed.

Lemma trimEnd_empty s : trimEnd s = "" ↔ isBlank s = true.
Proof.
  destruct s as [|c s]; [done|]. cbn [trimEnd].
  destruct (isBlank (String c s)); done.
Qed.

(** [trim] leaves nothing exactly of a value that is only white space. *)
Lemma trim_empty s : trim s = "" ↔ isBlank s = true.
Proof. unfold trim. by rewrite trimEnd_empty, isBlank_skipWhiteSpace. Qed.

(** [trim] on plain and on wide white space: the fourth value holds a
    no-break space U+00A0 between two ordinary spaces, the last two the
    ideographic space U+3000. *)
Example trim_examples :
  trim "  a b  " = "a b"
  ∧ trim " 11 9 " = "11 9"
  ∧ trim "   " = ""
  ∧ trim "   " = ""
  ∧ trim "　" = ""
  ∧ trim "　a@b.com　" = "a@b.com".
Proof. repeat split; vm_compute; reflexivity. Qed.

(** X20. Continue does nothing at all while no channel is chosen or the
    contact value is empty or only white space (any of the characters
    [trim] strips, the wide ones included); with a channel and a value
    holding some other character it moves the visible contact form to
    [contact_confirmed]. *)
Theorem continue_needs_channel_and_value origin w :
  (contactChannel w = None ∨ isBlank (contactValue w) = true →
   dispatch origin ClickContinue w = w)
  ∧ (chatVisible w = true → chatStep w = step_contact →
     is_Some (contactChannel w) → isBlank (contactValue w) = false →
     chatStep (dispatch origin ClickContinue w) = step_contact_confirmed).
Proof.
  split.
  - intros Hblocked.
    assert (Hd : continueDisabled w = true).
    { unfold continueDisabled. destruct Hblocked as [-> | Hb].
      - rewrite bool_decide_eq_false_2 by (by intros [? ?]). done.
      - apply trim_empty in Hb. rewrite Hb, orb_true_r. done. }
    unfold dispatch, handle. rewrite Hd, andb_false_r. by apply commit_same_deps.
  - intros Hv Hs Hc Hb.
    assert (Hd : continueDisabled w = false).
    { unfold continueDisabled. rewrite (bool_decide_eq_true_2 _ Hc).
      rewrite bool_decide_eq_false_2; [done|].
      intros Ht%trim_empty. congruence. }
    unfold dispatch, handle. rewrite commit_chatStep, Hv, Hs, Hd. reflexivity.
Qed.

(** The contact form with a channel chosen and only white space typed: a
    space, an ideographic space U+3000 and a no-break space U+00A0. *)
Definition blankContact : World :=
  run "" [ClickPackage 0; TimeoutFired; TimeoutFired; ClickChannel whatsapp;
          TypeContact " 　 "] (mount None).

Lemma continue_needs_channel_and_value_witness :
  dispatch "" ClickContinue blankContact = blankContact
  ∧ chatStep (dispatch "" ClickContinue (setContactValue " 11 9 " blankContact))
    = step_contact_confirmed.
Proof.
  split.
  - apply (continue_needs_channel_and_value "" blankContact). right.
    vm_compute. reflexivity.
  - apply (continue_needs_channel_and_value "" (setContactValue " 11 9 " blankContact));
      try (vm_compute; reflexivity).
    vm_compute. by eexists.
Defined.


(** ** Remote audio synchronizer *)

(** The effect with dependency [configAudioUrl].  It installs its
    listeners only if, when it runs, both remote elements are mounted and
    the audio URL is truthy.  The remote video is mounted exactly when the
    call room is rendered, the remote audio when moreover the audio URL is
    truthy; refs are attached before effects run. *)
Definition syncEffectRuns (old w : World) : bool :=
  negb (bool_decide (configAudioUrl old = configAudioUrl w)).

Definition syncInstalled (old w : World) : bool :=
  syncEffectRuns old w && roomVisible w && truthy (configAudioUrl w).

(** How many times the listeners are installed along a run. *)
Fixpoint syncInstalls (origin : string) (evs : list Event) (w : World) : nat :=
  match evs with
  | [] => 0
  | ev :: evs' =>
      let w' := dispatch origin ev w in
      ((if syncInstalled w w' then 1 else 0) + syncInstalls origin evs' w')%nat
  end.

Definition isConfigLoaded (ev : Event) : bool :=
  match ev with ConfigLoaded _ => true | _ => false end.

(** Every config fetch of the run completes while the call room is not
    rendered. *)
Fixpoint configOutsideCall (origin : string) (evs : list Event) (w : World) : Prop :=
  match evs with
  | [] => True
  | ev :: evs' =>
      (isConfigLoaded ev = true → roomVisible w = false)
      ∧ configOutsideCall origin evs' (dispatch origin ev w)
  end.

Lemma commit_configAudioUrl old w : configAudioUrl (commit old w) = configAudioUrl w.
Proof. unfold_commit. field_cases. Qed.

Lemma handle_configAudioUrl origin ev w :
  isConfigLoaded ev = false → configAudioUrl (handle origin ev w) = configAudioUrl w.
Proof.
  unfold handle.
  destruct ev as [data|r|h path| |i|c|v| | | | | | | ]; [done|..]; intros _;
    unfold_handlers; field_cases.
Qed.

Lemma configLoaded_roomVisible origin data w :
  roomVisible (dispatch origin (ConfigLoaded data) w) = roomVisible w.
Proof.
  unfold roomVisible, dispatch. rewrite commit_hasDurationParam, commit_inCall.
  unfold handle, configLoaded. by destruct data.
Qed.

(** X21. If every config fetch completes while the call room is not
    rendered, the synchronizer's listeners are never installed, not even
    once the call is on: no later event changes the audio URL, so the
    effect does not run again. *)
Theorem synchronizer_needs_rendered_room origin evs w :
  configOutsideCall origin evs w → syncInstalls origin evs w = 0%nat.
Proof.
  revert w. induction evs as [|ev evs IH]; intros w; [done|].
  cbn [configOutsideCall syncInstalls]. intros [Hcfg Hrest].
  rewrite (IH _ Hrest), Nat.add_0_r.
  unfold syncInstalled, syncEffectRuns.
  destruct (isConfigLoaded ev) eqn:Hev.
  - destruct ev; try discriminate Hev.
    rewrite configLoaded_roomVisible, (Hcfg eq_refl). by rewrite andb_false_r.
  - unfold dispatch. rewrite commit_configAudioUrl, handle_configAudioUrl by done.
    by rewrite bool_decide_eq_true_2.
Qed.

(** A direct-mode page whose config, audio URL included, arrives before
    the capture is granted. *)
Definition configThenCall : list Event :=
  [ConfigLoaded (Some {| video_url := None; audio_url := Some "https://cdn.example/a.mp3";
                         duration_seconds := None |});
   MediaResolved (Granted [AudioTrack; VideoTrack]);
   IntervalFired 1 Eager; IntervalFired 1 Eager].

Lemma synchronizer_needs_rendered_room_witness :
  syncInstalls "" configThenCall (mount (Some "600")) = 0%nat.
Proof.
  apply (synchronizer_needs_rendered_room "" configThenCall (mount (Some "600"))).
  vm_compute. repeat split; (reflexivity || discriminate).
Defined.

Example config_during_call_installs :
  syncInstalls ""
    [MediaResolved (Granted [AudioTrack; VideoTrack]);
     ConfigLoaded (Some {| video_url := None; audio_url := Some "https://cdn.example/a.mp3";
                           duration_seconds := None |})]
    (mount (Some "600")) = 1%nat.
Proof. vm_compute. reflexivity. Qed.

(** The listeners of the remote video element.  A callback is identified
    by the run of the effect that created the closure. *)
Inductive MediaEvent := EvPlay | EvPause | EvTimeUpdate.

Inductive Callback :=
  | PlayAudio (run : nat)
  | PauseAudio (run : nat)
  | SyncAudio (run : nat).

Global Instance MediaEvent_eq_dec : EqDecision MediaEvent.
Proof. solve_decision. Defined.
Global Instance Callback_eq_dec : EqDecision Callback.
Proof. solve_decision. Defined.

(** [addEventListener] ignores a listener already registered;
    [removeEventListener] removes the matching one, if any. *)
Definition addEventListener (l : MediaEvent * Callback)
    (ls : list (MediaEvent * Callback)) : list (MediaEvent * Callback) :=
  if decide (l ∈ ls) then ls else ls ++ [l].

Definition removeEventListener (l : MediaEvent * Callback)
    (ls : list (MediaEvent * Callback)) : list (MediaEvent * Callback) :=
  filter (λ l', l' ≠ l) ls.

(** The body of the effect, run number [k], once its guard has passed, and
    the cleanup it returns. *)
Definition syncListen (k : nat) (ls : list (MediaEvent * Callback)) :=
  let ls := addEventListener (EvPlay, PlayAudio k) ls in
  let ls := addEventListener (EvPause, PauseAudio k) ls in
  addEventListener (EvTimeUpdate, SyncAudio k) ls.

Definition syncUnlisten (k : nat) (ls : list (MediaEvent * Callback)) :=
  let ls := removeEventListener (EvPlay, SyncAudio k) ls in
  let ls := removeEventListener (EvPause, SyncAudio k) ls in
  removeEventListener (EvTimeUpdate, SyncAudio k) ls.

Definition callbackRun (c : Callback) : nat :=
  match c with PlayAudio k | PauseAudio k | SyncAudio k => k end.

Lemma addEventListener_fresh l ls : l ∉ ls → addEventListener l ls = ls ++ [l].
Proof. intros Hl. unfold addEventListener. by rewrite decide_False. Qed.

Lemma removeEventListener_app l ls1 ls2 :
  removeEventListener l (ls1 ++ ls2)
  = removeEventListener l ls1 ++ removeEventListener l ls2.
Proof. apply filter_app. Qed.

Lemma removeEventListener_absent l ls : l ∉ ls → removeEventListener l ls = ls.
Proof.
  unfold removeEventListener. induction ls as [|l' ls IH]; [done|].
  rewrite not_elem_of_cons. intros [Hne Hnot].
  rewrite filter_cons_True by done. by rewrite IH.
Qed.

Lemma removeEventListener_same l : removeEventListener l [l] = [].
Proof. unfold removeEventListener. by rewrite filter_cons_False by (by intros H). Qed.

(** X22. The cleanup of the synchronizer detaches only the [timeupdate]
    listener: it passes [syncAudio] for [play] and [pause] too, but those
    were registered with other closures, which stay attached. *)
Theorem synchronizer_cleanup_leaves_listeners k ls :
  Forall (λ l, callbackRun l.2 ≠ k) ls →
  syncUnlisten k (syncListen k ls) = ls ++ [(EvPlay, PlayAudio k); (EvPause, PauseAudio k)].
Proof.
  intros Hfresh.
  assert (Hnot : ∀ e c, callbackRun c = k → (e, c) ∉ ls).
  { intros e c Hc Hin. rewrite Forall_forall in Hfresh. by apply (Hfresh _ Hin). }
  unfold syncListen, syncUnlisten. cbv zeta.
  rewrite (addEventListener_fresh (EvPlay, PlayAudio k) ls) by (by apply Hnot).
  rewrite (addEventListener_fresh (EvPause, PauseAudio k)).
  2:{ rewrite not_elem_of_app, not_elem_of_cons. split; [by apply Hnot|]. split; [done|].
      apply not_elem_of_nil. }
  rewrite (addEventListener_fresh (EvTimeUpdate, SyncAudio k)).
  2:{ rewrite !not_elem_of_app, !not_elem_of_cons.
      split_and!; [by apply Hnot|done|apply not_elem_of_nil|done|apply not_elem_of_nil]. }
  rewrite !removeEventListener_app.
  rewrite !(removeEventListener_absent _ ls) by (by apply Hnot).
  rewrite (removeEventListener_absent (EvPlay, SyncAudio k) [(EvPlay, PlayAudio k)]),
    (removeEventListener_absent (EvPlay, SyncAudio k) [(EvPause, PauseAudio k)]),
    (removeEventListener_absent (EvPlay, SyncAudio k) [(EvTimeUpdate, SyncAudio k)]),
    (removeEventListener_absent (EvPause, SyncAudio k) [(EvPlay, PlayAudio k)]),
    (removeEventListener_absent (EvPause, SyncAudio k) [(EvPause, PauseAudio k)]),
    (removeEventListener_absent (EvPause, SyncAudio k) [(EvTimeUpdate, SyncAudio k)]),
    (removeEventListener_absent (EvTimeUpdate, SyncAudio k) [(EvPlay, PlayAudio k)]),
    (removeEventListener_absent (EvTimeUpdate, SyncAudio k) [(EvPause, PauseAudio k)]),
    removeEventListener_same;
    try (rewrite not_elem_of_cons; split; [done|apply not_elem_of_nil]).
  by rewrite app_nil_r, <- app_assoc.
Qed.

Lemma synchronizer_cleanup_leaves_listeners_witness :
  syncUnlisten 1 (syncListen 1 [(EvPlay, PlayAudio 0); (EvPause, PauseAudio 0)])
  = [(EvPlay, PlayAudio 0); (EvPause, PauseAudio 0)]
    ++ [(EvPlay, PlayAudio 1); (EvPause, PauseAudio 1)].
Proof.
  apply (synchronizer_cleanup_leaves_listeners 1
    [(EvPlay, PlayAudio 0); (EvPause, PauseAudio 0)]).
  repeat constructor; cbn; lia.
Defined.


(** ** Generate is one-shot *)

(** X23. Pressing Generate again changes nothing: whatever the world, a
    second press right after the first opens no further link and leaves
    every field as it is. *)
Theorem generate_idempotent origin w :
  dispatch origin ClickGenerate (dispatch origin ClickGenerate w)
  = dispatch origin ClickGenerate w.
Proof.
  assert (Hnoop : ∀ w0, chatStep w0 ≠ step_summary →
            dispatch origin ClickGenerate w0 = w0).
  { intros w0 Hs. unfold dispatch, handle.
    rewrite (bool_decide_eq_false_2 _ Hs), andb_false_r.
    destruct (selectedPackage w0); by apply commit_same_deps. }
  destruct (decide (chatStep (dispatch origin ClickGenerate w) = step_summary))
    as [Hs|Hs]; [|by apply Hnoop].
  (* the first press left the step at [summary]: it was not enabled *)
  assert (Hfirst : dispatch origin ClickGenerate w = w).
  { unfold dispatch, handle in *. rewrite commit_chatStep in Hs.
    destruct (selectedPackage w) as [pkg|]; [|by apply commit_same_deps].
    destruct (chatVisible w && bool_decide (chatStep w = step_summary));
      [discriminate Hs|by apply commit_same_deps]. }
  by rewrite !Hfirst.
Qed.

(** ** A limit that arrives during the call *)

(** X24. When a call is running without a limit of its own and the config
    fetch then supplies one, the elapsed seconds are kept and the interval
    is replaced by one created with the new limit; the next tick ends the
    call exactly when the elapsed seconds plus one reach that limit, even
    if they had already passed it. *)
Theorem config_limit_during_call origin w row d path :
  reachable origin w →
  inCall w = true →
  durationLimitSeconds w = None →
  duration_seconds row = Some d →
  inCall (dispatch origin (ConfigLoaded (Some row)) w) = true
  ∧ duration (dispatch origin (ConfigLoaded (Some row)) w) = duration w
  ∧ ∃ h, timerRef (dispatch origin (ConfigLoaded (Some row)) w) = Some h
         ∧ intervals (dispatch origin (ConfigLoaded (Some row)) w) = {[ h := d ]}
         ∧ inCall (dispatch origin (IntervalFired h path)
                     (dispatch origin (ConfigLoaded (Some row)) w))
           = bool_decide (duration w + 1 < d).
Proof.
  intros Hr Hc Hl Hd.
  set (w' := dispatch origin (ConfigLoaded (Some row)) w).
  assert (Hc' : inCall w' = true).
  { unfold w', dispatch. by rewrite commit_inCall. }
  assert (Hdur : duration w' = duration w).
  { unfold w', dispatch. by rewrite commit_duration. }
  assert (Hl' : durationLimitSeconds w' = Some d).
  { unfold w', dispatch. rewrite commit_durationLimitSeconds, handle_durationLimitSeconds, Hl.
    cbn. by rewrite Hd. }
  destruct (reachable_inv origin w' (reachable_dispatch origin _ w Hr)) as [_ Ht].
  unfold timerInv in Ht. rewrite Hc', Hl' in Ht. destruct Ht as (h & Hh & Hi).
  split; [exact Hc'|]. split; [exact Hdur|]. exists h. split; [exact Hh|].
  split; [exact Hi|].
  assert (Hlook : intervals w' !! h = Some d).
  { rewrite Hi. apply lookup_singleton_eq. }
  destruct (decide (duration w + 1 < d)) as [Hlt|Hge].
  - rewrite (tick_running origin h path d w' Hlook) by lia.
    rewrite bool_decide_eq_true_2 by done. exact Hc'.
  - destruct (tick_final origin h path d w' Hh Hlook) as (-> & _); [lia|].
    by rewrite bool_decide_eq_false_2.
Qed.

(** A call started from [?seconds=abc], four seconds in. *)
Definition unlimitedCall : World :=
  run "" [MediaResolved (Granted [AudioTrack; VideoTrack]); IntervalFired 1 Eager;
          IntervalFired 1 Eager; IntervalFired 1 Eager; IntervalFired 1 Eager]
    (mount (Some "abc")).

Lemma config_limit_during_call_witness :
  inCall (dispatch "" (remoteDuration 2) unlimitedCall) = true
  ∧ duration (dispatch "" (remoteDuration 2) unlimitedCall) = duration unlimitedCall
  ∧ ∃ h, timerRef (dispatch "" (remoteDuration 2) unlimitedCall) = Some h
         ∧ intervals (dispatch "" (remoteDuration 2) unlimitedCall) = {[ h := 2 ]}
         ∧ inCall (dispatch "" (IntervalFired h RenderPhase)
                     (dispatch "" (remoteDuration 2) unlimitedCall))
           = bool_decide (duration unlimitedCall + 1 < 2).
Proof.
  apply (config_limit_during_call "" unlimitedCall
    {| video_url := None; audio_url := None; duration_seconds := Some 2 |} 2 RenderPhase).
  - eexists (Some "abc"), _. reflexivity.
  - vm_compute. reflexivity.
  - vm_compute. reflexivity.
  - reflexivity.
Defined.

Example unlimitedCall_elapsed : duration unlimitedCall = 4.
Proof. vm_compute. reflexivity. Qed.
